(** * generate.js: extraction of component metadata and rendering of wrappers

    A shallow embedding of [src/generate.js] (material-web-react).  JavaScript
    strings are sequences of UTF-16 code units, modelled as [list N]; the
    regular expressions of the script are values of a small regex syntax run
    by a backtracking matcher with the priorities of the ECMAScript matcher
    (leftmost start, greedy and lazy quantifiers, numbered captures); objects
    used as maps are insertion-ordered association lists; the file system is a
    pair of partial functions, [None] standing for a rejected promise. *)

From Stdlib Require Import String Ascii.
From Stdlib Require Import NArith Bool Arith Lia List.
Import ListNotations.

Set Implicit Arguments.

(** ** JavaScript strings *)

Module JS.

Definition jsstring := list N.

(** A source literal, as code units. *)
Definition js (s : string) : jsstring :=
  map N_of_ascii (list_ascii_of_string s).

(** [a === b] *)
Fixpoint eqs (a b : jsstring) : bool :=
  match a, b with
  | [], [] => true
  | x :: a', y :: b' => (x =? y)%N && eqs a' b'
  | _, _ => false
  end.

(** [s.startsWith(p)] *)
Fixpoint startsWith (s p : jsstring) {struct p} : bool :=
  match p, s with
  | [], _ => true
  | a :: p', b :: s' => (a =? b)%N && startsWith s' p'
  | _ :: _, [] => false
  end.

(** [s.endsWith(p)] *)
Definition endsWith (s p : jsstring) : bool :=
  startsWith (rev s) (rev p).

(** [s.includes(p)] *)
Fixpoint includes (s p : jsstring) : bool :=
  startsWith s p ||
  match s with
  | [] => false
  | _ :: s' => includes s' p
  end.

(** [s.indexOf(p)], [None] for -1. *)
Fixpoint indexOf (s p : jsstring) : option nat :=
  if startsWith s p then Some 0
  else match s with
       | [] => None
       | _ :: s' => option_map S (indexOf s' p)
       end.

(** [s.replace(pat, repl)] with a string pattern: only the first occurrence
    is replaced.  The replacement strings of generate.js hold no [$]. *)
Definition replace (s pat repl : jsstring) : jsstring :=
  match indexOf s pat with
  | None => s
  | Some i => firstn i s ++ repl ++ skipn (i + length pat) s
  end.

(** White space and line terminators: the set of [\s] and of [trim]. *)
Definition is_space (c : N) : bool :=
  ((9 <=? c) && (c <=? 13) || (c =? 32) || (c =? 160) || (c =? 5760)
   || (8192 <=? c) && (c <=? 8202) || (c =? 8232) || (c =? 8233)
   || (c =? 8239) || (c =? 8287) || (c =? 12288) || (c =? 65279))%N.

Definition is_upper (c : N) : bool := ((65 <=? c) && (c <=? 90))%N.
Definition is_lower (c : N) : bool := ((97 <=? c) && (c <=? 122))%N.
Definition is_digit (c : N) : bool := ((48 <=? c) && (c <=? 57))%N.

(** [\w] *)
Definition is_word (c : N) : bool :=
  is_upper c || is_lower c || is_digit c || (c =? 95)%N.

Fixpoint trimStart (s : jsstring) : jsstring :=
  match s with
  | c :: s' => if is_space c then trimStart s' else s
  | [] => []
  end.

(** [s.trim()] *)
Definition trim (s : jsstring) : jsstring :=
  rev (trimStart (rev (trimStart s))).

(** [s.split(sep)] for a one-unit separator; the empty string splits into
    one empty piece. *)
Fixpoint split (sep : N) (s : jsstring) : list jsstring :=
  match s with
  | [] => [[]]
  | c :: s' =>
      if (c =? sep)%N then [] :: split sep s'
      else match split sep s' with
           | l :: ls => (c :: l) :: ls
           | [] => [[c]]
           end
  end.

(** [l.join(sep)] *)
Fixpoint join (sep : jsstring) (l : list jsstring) : jsstring :=
  match l with
  | [] => []
  | [x] => x
  | x :: l' => x ++ sep ++ join sep l'
  end.

(** [c.toUpperCase()] for a one-unit string.  Exact on the code units of
    [\w], the only ones generate.js applies it to. *)
Definition toUpperCase1 (c : N) : jsstring :=
  if is_lower c then [(c - 32)%N] else [c].

(** The line feed, as a string. *)
Definition nl : jsstring := [10%N].

(** Truthiness of a string value: the empty string is falsy. *)
Definition truthy (s : jsstring) : bool :=
  match s with [] => false | _ => true end.

End JS.
Import JS.

(** ** Regular expressions *)

Module Regex.

(** The fragment generate.js uses: every quantifier applies to a single
    character class. *)
Inductive regex :=
| Lit (s : jsstring)             (* a run of literal characters *)
| Cls (p : N -> bool)            (* one character of a class *)
| Star (p : N -> bool)           (* [p*], greedy *)
| StarLazy (p : N -> bool)       (* [p*?] *)
| Opt (p : N -> bool)            (* [p?], greedy *)
| Bol                            (* [^], no multiline flag *)
| Seq (a b : regex)
| Group (i : nat) (a : regex).   (* the i-th capturing parentheses *)

Notation "a >> b" := (Seq a b) (at level 61, right associativity).

(** [p+], greedy *)
Definition Plus (p : N -> bool) : regex := Cls p >> Star p.

Record mstate := MState {
  pos : nat;                       (* index of the next character *)
  rest : jsstring;                 (* input from [pos] on *)
  caps : list (nat * jsstring)     (* captures, most recent first *)
}.

Definition cap (i : nat) (cs : list (nat * jsstring)) : option jsstring :=
  match find (fun e => fst e =? i) cs with
  | Some e => Some (snd e)
  | None => None
  end.

Definition orelse {A} (x y : option A) : option A :=
  match x with Some _ => x | None => y end.

Section Matcher.
Context {A : Type}.

Fixpoint star_greedy (p : N -> bool) (n : nat) (s : jsstring)
    (k : nat -> jsstring -> option A) : option A :=
  match s with
  | c :: s' =>
      if p c then orelse (star_greedy p (S n) s' k) (k n s) else k n s
  | [] => k n s
  end.

Fixpoint star_lazy (p : N -> bool) (n : nat) (s : jsstring)
    (k : nat -> jsstring -> option A) : option A :=
  orelse (k n s)
    match s with
    | c :: s' => if p c then star_lazy p (S n) s' k else None
    | [] => None
    end.

(** The matcher, in continuation-passing style: [k] is the rest of the
    pattern, and a [None] from it makes the matcher try its next choice. *)
Fixpoint m (r : regex) (st : mstate) (k : mstate -> option A) : option A :=
  match r with
  | Lit l =>
      if startsWith (rest st) l
      then k (MState (pos st + length l) (skipn (length l) (rest st)) (caps st))
      else None
  | Cls p =>
      match rest st with
      | c :: s' => if p c then k (MState (S (pos st)) s' (caps st)) else None
      | [] => None
      end
  | Star p =>
      star_greedy p (pos st) (rest st) (fun n s => k (MState n s (caps st)))
  | StarLazy p =>
      star_lazy p (pos st) (rest st) (fun n s => k (MState n s (caps st)))
  | Opt p =>
      match rest st with
      | c :: s' =>
          if p c then orelse (k (MState (S (pos st)) s' (caps st))) (k st)
          else k st
      | [] => k st
      end
  | Bol => if pos st =? 0 then k st else None
  | Seq a b => m a st (fun st' => m b st' k)
  | Group i a =>
      m a st (fun st' =>
        k (MState (pos st') (rest st')
             ((i, firstn (pos st' - pos st) (rest st)) :: caps st')))
  end.

End Matcher.

(** One match: where it starts, where it ends, what follows, the captures. *)
Record rmatch := RMatch {
  m_start : nat;
  m_end : nat;
  m_rest : jsstring;
  m_caps : list (nat * jsstring)
}.

(** [match[i]] for a group that took part in the match. *)
Definition group (i : nat) (x : rmatch) : jsstring :=
  match cap i (m_caps x) with Some s => s | None => [] end.

(** The match starting exactly at index [n], where the input left is [s]. *)
Definition match_at (r : regex) (n : nat) (s : jsstring) : option rmatch :=
  m r (MState n s [])
    (fun st => Some (RMatch n (pos st) (rest st) (caps st))).

(** The leftmost match at or after index [n]. *)
Fixpoint search_from (r : regex) (n : nat) (s : jsstring) : option rmatch :=
  match match_at r n s with
  | Some x => Some x
  | None =>
      match s with
      | [] => None
      | _ :: s' => search_from r (S n) s'
      end
  end.

(** [s.match(r)] for a regex without the global flag. *)
Definition exec (r : regex) (s : jsstring) : option rmatch :=
  search_from r 0 s.

(** The matches of a global regex, as [s.matchAll(r)] yields them: each
    search resumes where the last match ended, one further after an empty
    match.  [fuel] bounds the number of matches. *)
Fixpoint matchAll_from (fuel : nat) (r : regex) (n : nat) (s : jsstring)
    : list rmatch :=
  match fuel with
  | 0 => []
  | S fuel' =>
      match search_from r n s with
      | None => []
      | Some x =>
          x :: (if m_end x =? m_start x
                then match m_rest x with
                     | [] => []
                     | _ :: s' => matchAll_from fuel' r (S (m_end x)) s'
                     end
                else matchAll_from fuel' r (m_end x) (m_rest x))
      end
  end.

Definition matchAll (r : regex) (s : jsstring) : list rmatch :=
  matchAll_from (S (length s)) r 0 s.

(** [s.replace(r, repl)] for a regex without the global flag and a
    replacement computed from the match. *)
Definition replace_re (r : regex) (repl : rmatch -> jsstring) (s : jsstring)
    : jsstring :=
  match exec r s with
  | None => s
  | Some x => firstn (m_start x) s ++ repl x ++ m_rest x
  end.

(** [s.replace(r, repl)] for a global regex: the text between the matches
    is kept, each match is replaced. *)
Fixpoint rebuild (repl : rmatch -> jsstring) (n : nat) (s : jsstring)
    (ms : list rmatch) : jsstring :=
  match ms with
  | [] => s
  | x :: ms' =>
      firstn (m_start x - n) s ++ repl x ++
      rebuild repl (m_end x) (skipn (m_end x - n) s) ms'
  end.

Definition replaceAll_re (r : regex) (repl : rmatch -> jsstring)
    (s : jsstring) : jsstring :=
  rebuild repl 0 s (matchAll r s).

(** The words a regex matches at index [n], and the captures it leaves:
    the declarative reading of the syntax, without priorities. *)
Inductive sem : regex -> nat -> jsstring ->
    list (nat * jsstring) -> list (nat * jsstring) -> Prop :=
| sem_lit l n cs : sem (Lit l) n l cs cs
| sem_cls p c n cs : p c = true -> sem (Cls p) n [c] cs cs
| sem_star p w n cs : forallb p w = true -> sem (Star p) n w cs cs
| sem_starlazy p w n cs : forallb p w = true -> sem (StarLazy p) n w cs cs
| sem_opt_one p c n cs : p c = true -> sem (Opt p) n [c] cs cs
| sem_opt_none p n cs : sem (Opt p) n [] cs cs
| sem_bol cs : sem Bol 0 [] cs cs
| sem_seq a b n w1 w2 cs cs1 cs2 :
    sem a n w1 cs cs1 -> sem b (n + length w1) w2 cs1 cs2 ->
    sem (Seq a b) n (w1 ++ w2) cs cs2
| sem_group i a n w cs cs1 :
    sem a n w cs cs1 -> sem (Group i a) n w cs ((i, w) :: cs1).

End Regex.
Import Regex.

(** ** Objects used as maps *)

Module Obj.

(** An object with string keys and string values, in insertion order. *)
Definition jsobj := list (jsstring * jsstring).

(** Writing the own property [k]: an existing key keeps its place and takes
    the new value, a new key goes last. *)
Fixpoint set_own (o : jsobj) (k v : jsstring) : jsobj :=
  match o with
  | [] => [(k, v)]
  | (k', v') :: o' =>
      if eqs k' k then (k', v) :: o' else (k', v') :: set_own o' k v
  end.

(** [o[k] = v] for a string [v] on an object literal: the key [__proto__]
    reaches the setter of [Object.prototype], which ignores a value that is
    neither an object nor [null]; any other key writes an own property. *)
Definition set (o : jsobj) (k v : jsstring) : jsobj :=
  if eqs k (js "__proto__") then o else set_own o k v.

(** The own property [k] of [o], [None] when it has none. *)
Fixpoint get (o : jsobj) (k : jsstring) : option jsstring :=
  match o with
  | [] => None
  | (k', v') :: o' => if eqs k' k then Some v' else get o' k
  end.

(** The value of a key that is an array index: a canonical decimal numeral
    below 2^32 - 1. *)
Definition index_value (k : jsstring) : option N :=
  match k with
  | [] => None
  | c :: k' =>
      if forallb is_digit k && (negb (c =? 48)%N || match k' with [] => true | _ => false end)
      then let v := fold_left (fun a d => (a * 10 + (d - 48))%N) k 0%N in
           if (v <? 4294967295)%N then Some v else None
      else None
  end.

Fixpoint insert_sorted (e : N * (jsstring * jsstring))
    (l : list (N * (jsstring * jsstring))) : list (N * (jsstring * jsstring)) :=
  match l with
  | [] => [e]
  | e' :: l' =>
      if (fst e <=? fst e')%N then e :: l else e' :: insert_sorted e l'
  end.

Fixpoint index_entries (o : jsobj) : list (N * (jsstring * jsstring)) :=
  match o with
  | [] => []
  | e :: o' =>
      match index_value (fst e) with
      | Some n => insert_sorted (n, e) (index_entries o')
      | None => index_entries o'
      end
  end.

(** [Object.entries(o)]: array-index keys in ascending order, then the other
    keys in insertion order. *)
Definition entries (o : jsobj) : list (jsstring * jsstring) :=
  map snd (index_entries o) ++
  filter (fun e => match index_value (fst e) with Some _ => false | None => true end) o.

(** [Object.keys(o)] *)
Definition keys (o : jsobj) : list jsstring := map fst (entries o).

End Obj.

(** ** The script *)

Module Generate.

Definition TEMP_DIR : jsstring := js "temp-material-web".
Definition OUTPUT_DIR : jsstring := js "src".

(** A path, as the segments [path.join] puts together.  The segments the
    script joins are its constants and names a directory listing returned,
    which [path.join] leaves as they are. *)
Definition path := list jsstring.

(** The file system the script reads.  [None] is a rejected promise (a
    missing or unreadable entry). *)
Record FS := {
  (* [fs.readdir(p, { withFileTypes: true })]: name and [isDirectory()] *)
  readdirTypes : path -> option (list (jsstring * bool));
  (* [fs.readFile(p, 'utf-8')] *)
  readFile : path -> option jsstring
}.

(** [fs.readdir(p)] *)
Definition readdir (fs : FS) (p : path) : option (list jsstring) :=
  option_map (map fst) (readdirTypes fs p).

Notation "x <- e ;; k" :=
  (match e with Some x => k | None => None end)
  (at level 100, e at next level, right associativity).

(** [try { body } catch (error) { return dflt }] *)
Definition try_catch {A} (body : option A) (dflt : A) : A :=
  match body with Some v => v | None => dflt end.

Definition c_quote (c : N) : bool := ((c =? 39) || (c =? 34) || (c =? 96))%N.
Definition c_notquote (c : N) : bool := negb (c_quote c).
Definition c_any (c : N) : bool := true.
Definition c_notbrace (c : N) : bool := negb (c =? 125)%N.
Definition c_not_at_nl (c : N) : bool := negb ((c =? 64) || (c =? 10))%N.

(** [/export class (Md\w+)/] *)
Definition className_re : regex :=
  Lit (js "export class ") >> Group 1 (Lit (js "Md") >> Plus is_word).

(** [/@customElement\(['\x22`]([^'\x22`]+)['\x22`]\)/], with [\x22] written for
    the double quote. *)
Definition tagName_re : regex :=
  Lit (js "@customElement(") >> Cls c_quote >> Group 1 (Plus c_notquote) >>
  Cls c_quote >> Lit (js ")").

(** The global regex of [extractEvents], piece by piece: [@fires], [\s+],
    group 1 [\w+], [\s+], [\{], [[^}]*], [\}], [\s*], group 2 [[^@\n]*]. *)
Definition fires_re : regex :=
  Lit (js "@fires") >> Plus is_space >> Group 1 (Plus is_word) >>
  Plus is_space >> Lit (js "{") >> Star c_notbrace >> Lit (js "}") >>
  Star is_space >> Group 2 (Star c_not_at_nl).

(** [/\/\*\*\s*([\s\S]*?)\s*\*\/\s*export class/] *)
Definition classDoc_re : regex :=
  Lit (js "/**") >> Star is_space >> Group 1 (StarLazy c_any) >>
  Star is_space >> Lit (js "*/") >> Star is_space >> Lit (js "export class").

(** [/\/\*\*\s*([\s\S]*?)\s*\*\/\s*@property[^}]*?\s+(\w+)/g] *)
Definition propertyDoc_re : regex :=
  Lit (js "/**") >> Star is_space >> Group 1 (StarLazy c_any) >>
  Star is_space >> Lit (js "*/") >> Star is_space >> Lit (js "@property") >>
  StarLazy c_notbrace >> Plus is_space >> Group 2 (Plus is_word).

(** [/^\s*\*\s?/] *)
Definition lineStar_re : regex :=
  Bol >> Star is_space >> Lit (js "*") >> Opt is_space.

(** [/([A-Z])/g] *)
Definition upper_re : regex := Group 1 (Cls is_upper).

(** [null] is [None]. *)
Definition extractClassName (content : jsstring) : option jsstring :=
  match exec className_re content with
  | Some x => Some (group 1 x)
  | None => None
  end.

Definition extractTagName (content : jsstring) : option jsstring :=
  match exec tagName_re content with
  | Some x => Some (group 1 x)
  | None => None
  end.

(** [on${eventName.charAt(0).toUpperCase()}${eventName.slice(1)}] *)
Definition reactEventName (eventName : jsstring) : jsstring :=
  js "on" ++
  match eventName with [] => [] | c :: _ => toUpperCase1 c end ++
  tl eventName.

(** The loop over [fireMatches], filling [events]. *)
Fixpoint fires_loop (fireMatches : list rmatch) (events : Obj.jsobj)
    : Obj.jsobj :=
  match fireMatches with
  | [] => events
  | x :: ms =>
      let eventName := group 1 x in
      fires_loop ms (Obj.set events (reactEventName eventName) eventName)
  end.

Definition is_internal_candidate (file : jsstring) : bool :=
  endsWith file (js ".ts") && negb (includes file (js "styles")) &&
  negb (includes file (js "test")).

(** The loop of [extractEvents] over the listing of [internal]: the first
    candidate file decides the result. *)
Fixpoint extractEvents_loop (fs : FS) (internalPath : path)
    (files : list jsstring) : option Obj.jsobj :=
  match files with
  | [] => Some []
  | file :: files' =>
      if is_internal_candidate file then
        content <- readFile fs (internalPath ++ [file]) ;;
        Some (fires_loop (matchAll fires_re content) [])
      else extractEvents_loop fs internalPath files'
  end.

Definition extractEvents (fs : FS) (componentPath : path) : Obj.jsobj :=
  try_catch
    (let internalPath := componentPath ++ [js "internal"] in
     files <- readdir fs internalPath ;;
     extractEvents_loop fs internalPath files)
    [].

(** The cleaning both kinds of documentation share:
    [.split('\n').map(line => line.replace(/^\s*\*\s?/, '').trim())
     .filter(line => line && !line.startsWith('@'))] *)
Definition clean_lines (docContent : jsstring) : list jsstring :=
  filter (fun line => truthy line && negb (startsWith line (js "@")))
    (map (fun line => trim (replace_re lineStar_re (fun _ => []) line))
       (split 10 docContent)).

(** The loop over [propertyMatches], filling [propertyDocs]. *)
Fixpoint propertyDocs_loop (propertyMatches : list rmatch)
    (propertyDocs : Obj.jsobj) : Obj.jsobj :=
  match propertyMatches with
  | [] => propertyDocs
  | x :: ms =>
      let docContent := group 1 x in
      let propertyName := group 2 x in
      let cleanDoc := join (js " ") (clean_lines docContent) in
      propertyDocs_loop ms
        (if truthy cleanDoc then Obj.set propertyDocs propertyName cleanDoc
         else propertyDocs)
  end.

(** Returns [{ documentation, propertyDocs }]. *)
Definition extractDocumentation (content : jsstring)
    : jsstring * Obj.jsobj :=
  let documentation :=
    match exec classDoc_re content with
    | Some classDocMatch =>
        join nl (clean_lines (group 1 classDocMatch))
    | None => []
    end in
  let propertyDocs :=
    propertyDocs_loop (matchAll propertyDoc_re content) [] in
  (documentation, propertyDocs).

Record variant := Variant {
  fileName : jsstring;
  className : jsstring;
  tagName : jsstring;
  importPath : jsstring;
  events : Obj.jsobj;
  documentation : jsstring;
  propertyDocs : Obj.jsobj
}.

Record component := Component {
  name : jsstring;
  variants : list variant
}.

Definition is_candidate (file : jsstring) : bool :=
  endsWith file (js ".ts") && negb (includes file (js "internal")) &&
  negb (includes file (js "test")) && negb (includes file (js "demo")).

(** Truthiness of a value that is a string or [null]. *)
Definition truthy_opt (v : option jsstring) : bool :=
  match v with Some s => truthy s | None => false end.

(** What one candidate file of text [content] adds to [variants]: the body
    of the loop of [findAllComponentVariants] after the file is read. *)
Definition variant_of (fs : FS) (componentPath : path)
    (componentName file content : jsstring) : option variant :=
  if includes content (js "@customElement") &&
     includes content (js "export class") then
    let className := extractClassName content in
    let tagName := extractTagName content in
    let '(documentation, propertyDocs) := extractDocumentation content in
    match className, tagName with
    | Some cn, Some tn =>
        if truthy cn && truthy tn then
          let events := extractEvents fs componentPath in
          Some (Variant (replace file (js ".ts") [])
                  cn tn
                  (js "@material/web/" ++ componentName ++ js "/" ++
                   replace file (js ".ts") (js ".js"))
                  events documentation propertyDocs)
        else None
    | _, _ => None
    end
  else None.

(** The loop of [findAllComponentVariants]; [None] is an exception thrown by
    a read. *)
Fixpoint findAll_loop (fs : FS) (componentPath : path)
    (componentName : jsstring) (files : list jsstring)
    (variants : list variant) : option (list variant) :=
  match files with
  | [] => Some variants
  | file :: files' =>
      if is_candidate file then
        content <- readFile fs (componentPath ++ [file]) ;;
        findAll_loop fs componentPath componentName files'
          match variant_of fs componentPath componentName file content with
          | Some v => variants ++ [v]
          | None => variants
          end
      else findAll_loop fs componentPath componentName files' variants
  end.

Definition findAllComponentVariants (fs : FS) (componentPath : path)
    (componentName : jsstring) : list variant :=
  try_catch
    (files <- readdir fs componentPath ;;
     findAll_loop fs componentPath componentName files [])
    [].

(** What the entry [file] of the listing accounts for in the result, when
    no read of the directory is rejected. *)
Definition variants_of_file (fs : FS) (componentPath : path)
    (componentName file : jsstring) : list variant :=
  if is_candidate file then
    match readFile fs (componentPath ++ [file]) with
    | Some content =>
        match variant_of fs componentPath componentName file content with
        | Some v => [v]
        | None => []
        end
    | None => []
    end
  else [].

Definition path_eq_dec (p q : path) : {p = q} + {p <> q} :=
  list_eq_dec (list_eq_dec N.eq_dec) p q.

(** The file system [fs] with the reading of [p] replaced by [r]. *)
Definition with_file (fs : FS) (p : path) (r : option jsstring) : FS :=
  {| readdirTypes := readdirTypes fs;
     readFile q := if path_eq_dec q p then r else readFile fs q |}.

(** [s] does not go on with a character of the class [p]. *)
Definition stops (p : N -> bool) (s : jsstring) : Prop :=
  match s with [] => True | c :: _ => p c = false end.

(** [cn] is what the leftmost [export class Md\w+] of [content] names, with
    all the word characters that follow [Md]. *)
Definition first_class_match (content cn : jsstring) : Prop :=
  exists pre u post,
    content = pre ++ js "export class " ++ cn ++ post /\
    cn = js "Md" ++ u /\ u <> [] /\ forallb is_word u = true /\
    stops is_word post /\
    forall pre' u' post',
      content = pre' ++ js "export class Md" ++ u' ++ post' ->
      u' <> [] -> forallb is_word u' = true ->
      length pre <= length pre'.

(** [tn] is the quoted argument of the leftmost [@customElement(...)] of
    [content] that holds a non-empty string literal. *)
Definition first_tag_match (content tn : jsstring) : Prop :=
  exists pre q1 q2 post,
    content = pre ++ js "@customElement(" ++ q1 :: tn ++ q2 :: js ")" ++ post /\
    c_quote q1 = true /\ c_quote q2 = true /\
    tn <> [] /\ forallb c_notquote tn = true /\
    forall pre' q1' tn' q2' post',
      content =
        pre' ++ js "@customElement(" ++ q1' :: tn' ++ q2' :: js ")" ++ post' ->
      c_quote q1' = true -> c_quote q2' = true ->
      tn' <> [] -> forallb c_notquote tn' = true ->
      length pre <= length pre'.

Definition excluded_names : list jsstring :=
  [js "docs"; js "testing"; js "tokens"; js "scripts"; js "catalog"].

Definition is_component_entry (entry : jsstring * bool) : bool :=
  snd entry && negb (startsWith (fst entry) (js ".")) &&
  negb (existsb (eqs (fst entry)) excluded_names).

Fixpoint analyze_loop (fs : FS) (componentsPath : path)
    (entries : list (jsstring * bool)) (components : list component)
    : list component :=
  match entries with
  | [] => components
  | entry :: entries' =>
      if is_component_entry entry then
        let componentPath := componentsPath ++ [fst entry] in
        let variants := findAllComponentVariants fs componentPath (fst entry) in
        analyze_loop fs componentsPath entries'
          (if 0 <? length variants
           then components ++ [Component (fst entry) variants]
           else components)
      else analyze_loop fs componentsPath entries' components
  end.

(** [None]: the listing of the root is rejected, and the rejection reaches
    [main]. *)
Definition analyzeComponentStructure (fs : FS) : option (list component) :=
  let componentsPath := [TEMP_DIR] in
  entries <- readdirTypes fs componentsPath ;;
  Some (analyze_loop fs componentsPath entries []).

(** What [extractComponentInfo] resolves to when it is not [null]. *)
Record componentInfo := ComponentInfo {
  info_className : jsstring;
  info_tagName : jsstring;
  info_documentation : jsstring;
  info_propertyDocs : Obj.jsobj
}.

(** [extractComponentInfo(filePath, componentName)]; [None] is [null], which
    the function returns from three places: the markers or an extraction
    missing, and the [catch]. *)
Definition extractComponentInfo (fs : FS) (filePath : path)
    (componentName : jsstring) : option componentInfo :=
  try_catch
    (content <- readFile fs filePath ;;
     Some
       (if includes content (js "@customElement") &&
           includes content (js "export class") then
          let className := extractClassName content in
          let tagName := extractTagName content in
          let '(documentation, propertyDocs) := extractDocumentation content in
          match className, tagName with
          | Some cn, Some tn =>
              if truthy cn && truthy tn
              then Some (ComponentInfo cn tn documentation propertyDocs)
              else None
          | _, _ => None
          end
        else None))
    None.

(** A string with no white space at either end. *)
Definition trimmed (s : jsstring) : Prop :=
  stops is_space s /\ stops is_space (rev s).

(** A space put before every upper-case letter. *)
Definition space_capitals (s : jsstring) : jsstring :=
  flat_map (fun c => if is_upper c then [32%N; c] else [c]) s.

(** [generateReactWrapper(component)], with [timestamp] the value
    [new Date().toISOString()] has when the function reads the clock. *)
Definition wrapper_header (componentName timestamp : jsstring) : jsstring :=
  join nl
    [ js "/**";
      js " * @fileoverview React wrappers for Material Web " ++ componentName ++
        js " components";
      js " * ";
      js " * This file was auto-generated on " ++ timestamp;
      js " * ";
      js " * DO NOT EDIT MANUALLY - This file is generated by generate.js";
      js " * To regenerate, run: npm run generate";
      js " * ";
      js " * @generated";
      js " */" ].

Definition wrapper_import (v : variant) : jsstring :=
  js "import { " ++ className v ++ js " as _" ++ className v ++
  js " } from '" ++ importPath v ++ js "'".

Definition wrapper_type (v : variant) : jsstring :=
  join nl
    [ [];
      js "/**";
      js " * Props for the `" ++ className v ++ js "` component.";
      js " * This interface is used to provide the props for the `" ++
        className v ++ js "` component.";
      js " *";
      js " */";
      js "export type " ++ className v ++ js "Props = ComponentProps<typeof " ++
        className v ++ js ">" ].

Definition wrapper_interface (v : variant) : jsstring :=
  nl ++ js "export interface " ++ className v ++ js "Element extends _" ++
  className v ++ js " {}".

Definition eventsObj (v : variant) : jsstring :=
  if 0 <? length (Obj.keys (events v)) then
    js "{" ++ nl ++ js "        " ++
    join (js "," ++ nl ++ js "        ")
      (map (fun e => fst e ++ js ": '" ++ snd e ++ js "'")
         (Obj.entries (events v))) ++
    js "," ++ nl ++ js "    }"
  else js "{}".

Definition paramDocs (v : variant) : jsstring :=
  join nl
    (map (fun e => js " * @param {any} " ++ fst e ++ js " - " ++ snd e)
       (Obj.entries (propertyDocs v))).

Definition fullDocumentation (v : variant) : jsstring :=
  if truthy (documentation v) then
    documentation v ++ nl ++ js " *" ++ nl ++ js " * @component" ++ nl ++
    paramDocs v
  else
    js "Material Design " ++
    trim (replaceAll_re upper_re (fun x => js " " ++ group 1 x)
            (replace (className v) (js "Md") [])) ++
    js " component." ++ nl ++
    js " * This component is a React wrapper around the `" ++ tagName v ++
    js "` custom element." ++ nl ++ js " *" ++ nl ++ js " * @component" ++ nl ++
    paramDocs v.

Definition wrapper_definition (v : variant) : jsstring :=
  join nl
    [ [];
      js "/**";
      js " * " ++ fullDocumentation v;
      js " */";
      js "export const " ++ className v ++ js " = createComponent({";
      js "    react: React,";
      js "    tagName: '" ++ tagName v ++ js "',";
      js "    elementClass: _" ++ className v ++ js ",";
      js "    events: " ++ eventsObj v ++ js ",";
      js "})" ].

Definition generateReactWrapper (component : component)
    (timestamp : jsstring) : jsstring :=
  let variants := variants component in
  if length variants =? 0 then []
  else
    let header := wrapper_header (name component) timestamp in
    let imports := join nl (map wrapper_import variants) in
    let typeDefinitions := join nl (map wrapper_type variants) in
    let elementInterfaces := join nl (map wrapper_interface variants) in
    let componentDefinitions := join nl (map wrapper_definition variants) in
    join nl
      [ header;
        [];
        js "'use client'";
        [];
        js "import { createComponent } from '@lit/react'";
        js "import React, { ComponentProps } from 'react'";
        imports;
        typeDefinitions;
        elementInterfaces;
        componentDefinitions;
        [] ].

Record exportRecord := ExportRecord {
  componentName : jsstring;
  propsName : jsstring;
  elementName : jsstring;
  folder : jsstring
}.

(** The records [createOutputStructure] pushes for one component. *)
Definition exports_of (c : component) : list exportRecord :=
  map (fun v => ExportRecord (className v) (className v ++ js "Props")
                  (className v ++ js "Element") (name c))
    (variants c).

Definition export_line (exp : exportRecord) : jsstring :=
  js "export { " ++ componentName exp ++ js ", type " ++ propsName exp ++
  js ", type " ++ elementName exp ++ js " } from './" ++ folder exp ++ js "'".

(** The text [generateMainIndex(allExports)] writes. *)
Definition mainIndexContent (allExports : list exportRecord)
    (timestamp : jsstring) : jsstring :=
  let exports := join nl (map export_line allExports) in
  join nl
    [ js "/**";
      js " * @fileoverview Main exports for all Material Web React components";
      js " * ";
      js " * This file was auto-generated on " ++ timestamp;
      js " * ";
      js " * DO NOT EDIT MANUALLY - This file is generated by generate.js";
      js " * To regenerate, run: npm run generate";
      js " * ";
      js " * @generated";
      js " */";
      [];
      exports;
      [] ].

(** Whether [generateReactWrapper] reads the clock for [c]: it returns the
    empty string before [new Date()] when [c] has no variants. *)
Definition reads_clock (c : component) : bool :=
  negb (length (variants c) =? 0).

(** The files [createOutputStructure] writes, oldest first.  [clock t] is
    what the [t]-th reading of the clock of the run gives, and [t] counts
    the readings made so far: one by [generateReactWrapper] for each
    component with variants, none for a component without, and a last one by
    [generateMainIndex].  The directories created and the lines logged are
    left out, and every write is taken to succeed (a rejected one ends the
    run in [main]). *)
Fixpoint createOutput_loop (clock : nat -> jsstring) (t : nat)
    (components : list component) (allExports : list exportRecord)
    (written : list (path * jsstring))
    : nat * list exportRecord * list (path * jsstring) :=
  match components with
  | [] => (t, allExports, written)
  | component :: components' =>
      let componentDir := [OUTPUT_DIR; name component] in
      let wrapperContent := generateReactWrapper component (clock t) in
      let indexPath := componentDir ++ [js "index.tsx"] in
      createOutput_loop clock (if reads_clock component then S t else t)
        components'
        (allExports ++ exports_of component)
        (written ++ [(indexPath, wrapperContent)])
  end.

Definition createOutputStructure (clock : nat -> jsstring)
    (components : list component) : list (path * jsstring) :=
  let '(t, allExports, written) :=
    createOutput_loop clock 0 components [] [] in
  written ++ [([OUTPUT_DIR; js "index.ts"], mainIndexContent allExports (clock t))].

(** The number of readings of the clock the wrappers of [components]
    make. *)
Fixpoint clock_reads (components : list component) : nat :=
  match components with
  | [] => 0
  | c :: components' =>
      (if reads_clock c then 1 else 0) + clock_reads components'
  end.

(** The wrapper files of [components], when [t] readings of the clock were
    made before. *)
Fixpoint wrapper_files (clock : nat -> jsstring) (t : nat)
    (components : list component) : list (path * jsstring) :=
  match components with
  | [] => []
  | c :: components' =>
      ([OUTPUT_DIR; name c; js "index.tsx"], generateReactWrapper c (clock t))
      :: wrapper_files clock (if reads_clock c then S t else t) components'
  end.

(** The line of a header that holds the time of generation. *)
Definition stamp_line (timestamp : jsstring) : jsstring :=
  js " * This file was auto-generated on " ++ timestamp.

(** Files given by what does not depend on the clock: a path, the text
    before the line of the time and the text after it.  [fill] writes the
    [t]-th reading of the clock into the first, the next into the second,
    and so on. *)
Fixpoint fill (clock : nat -> jsstring) (t : nat)
    (templates : list (path * (jsstring * jsstring)))
    : list (path * jsstring) :=
  match templates with
  | [] => []
  | (p, (before, after)) :: templates' =>
      (p, before ++ nl ++ stamp_line (clock t) ++ nl ++ after)
      :: fill clock (S t) templates'
  end.

(** Two texts with the same lines but for one, which in each is the line of
    the time of generation. *)
Definition differ_in_stamp_line (c1 c2 : jsstring) : Prop :=
  exists above ts1 ts2 below,
    split 10 c1 = above ++ stamp_line ts1 :: below /\
    split 10 c2 = above ++ stamp_line ts2 :: below.

(** Two texts that are the same but for the time written on their
    [This file was auto-generated on] line. *)
Definition same_but_timestamp (c1 c2 : jsstring) : Prop :=
  exists pre ts1 ts2 post,
    c1 = pre ++ nl ++ js " * This file was auto-generated on " ++ ts1 ++
         nl ++ post /\
    c2 = pre ++ nl ++ js " * This file was auto-generated on " ++ ts2 ++
         nl ++ post.

(** [main], from the analysis on: the files a run over [fs] writes, [None]
    when the listing of the root is rejected. *)
Definition run (fs : FS) (clock : nat -> jsstring)
    : option (list (path * jsstring)) :=
  components <- analyzeComponentStructure fs ;;
  Some (createOutputStructure clock components).

End Generate.

(** ** A file tree to run the script on *)

Module Tree.
Import Generate.

#[warnings="-register-all"]
Inductive node :=
| File (content : jsstring)
| Dir (entries : list (jsstring * node)).

Definition is_dir (n : node) : bool :=
  match n with Dir _ => true | File _ => false end.

Definition child (seg : jsstring) (entries : list (jsstring * node))
    : option node :=
  match find (fun e => eqs (fst e) seg) entries with
  | Some e => Some (snd e)
  | None => None
  end.

Fixpoint walk (n : node) (p : path) : option node :=
  match p with
  | [] => Some n
  | seg :: p' =>
      match n with
      | Dir entries =>
          match child seg entries with
          | Some n' => walk n' p'
          | None => None
          end
      | File _ => None
      end
  end.

(** The file system whose working directory holds [root]: listing a file or
    a missing path is rejected, and so is reading a directory. *)
Definition fs_of (root : node) : FS :=
  {| readdirTypes p :=
       match walk root p with
       | Some (Dir entries) =>
           Some (map (fun e => (fst e, is_dir (snd e))) entries)
       | _ => None
       end;
     readFile p :=
       match walk root p with
       | Some (File content) => Some content
       | _ => None
       end |}.

Definition lines (l : list string) : jsstring := join nl (map js l).

Definition filled_button_ts : jsstring :=
  lines [ "@customElement('md-filled-button')";
          "export class MdFilledButton extends FilledButton {";
          "  /** Disables the button. */";
          "  @property() disabled = false;";
          "}" ]%string.

Definition text_button_ts : jsstring :=
  lines [ "/**";
          " * A text button.";
          " * @final";
          " */";
          "export class MdTextButton extends TextButton {}";
          "customElements.define; @customElement(`md-text-button`)" ]%string.

Definition internal_button_ts : jsstring :=
  lines [ "/**";
          " * @fires change {Event} Fired when the value changes";
          " * @fires input {InputEvent} Fired on input --bubbles";
          " */";
          "export class Button {}" ]%string.

Definition internal_other_ts : jsstring :=
  lines [ " * @fires click {Event} Never scanned" ]%string.

Definition button_dir : node :=
  Dir [ (js "contest.ts", File filled_button_ts);
        (js "filled-button.ts", File filled_button_ts);
        (js "harness.ts", File (js "export class Harness {}"));
        (js "internal",
         Dir [ (js "button-styles.ts", File internal_other_ts);
               (js "button.ts", File internal_button_ts);
               (js "other.ts", File internal_other_ts) ]);
        (js "text-button.ts", File text_button_ts) ].

(** [broken] holds a directory whose name ends in [.ts]: reading it as a
    file is rejected. *)
Definition sample_root : node :=
  Dir [ (js "temp-material-web",
         Dir [ (js ".git", Dir []);
               (js "README.md", File (js "Material Web"));
               (js "broken",
                Dir [ (js "a.ts", File filled_button_ts);
                      (js "b.ts", Dir []) ]);
               (js "button", button_dir);
               (js "docs", Dir [ (js "x.ts", File filled_button_ts) ]);
               (js "empty", Dir [ (js "notes.ts", File (js "nothing")) ]) ]) ].

(** A source file with a comment and an import before the decorated and
    documented class. *)
Definition license_class_ts : jsstring :=
  lines [ "/** Copyright 2021 Google LLC */";
          "import {customElement} from 'lit/decorators.js';";
          "@customElement('md-filled-button')";
          "/** A filled button. */";
          "export class MdFilledButton extends Button {}" ]%string.

(** A component directory that holds this file. *)
Definition license_root : node :=
  Dir [ (js "temp-material-web",
         Dir [ (js "button",
                Dir [ (js "filled-button.ts", File license_class_ts) ]) ]) ].

(** A class with two adjacent documented properties, declared with their
    types. *)
Definition two_properties_ts : jsstring :=
  lines [ "@customElement('md-filled-button')";
          "export class MdFilledButton extends Button {";
          "  /** Whether the button is disabled. */";
          "  @property({type: Boolean}) disabled = false;";
          "  /** Whether the button is soft-disabled. */";
          "  @property({type: Boolean}) softDisabled = false;";
          "}" ]%string.

(** A component directory that holds this file. *)
Definition two_properties_root : node :=
  Dir [ (js "temp-material-web",
         Dir [ (js "button",
                Dir [ (js "filled-button.ts", File two_properties_ts) ]) ]) ].

(** Two annotations whose event names differ in the case of their first
    letter. *)
Definition two_fires_ts : jsstring :=
  lines [ " * @fires change {Event} Fired when the value changes";
          " * @fires Change {CustomEvent} Fired by the legacy API" ]%string.

(** A component directory whose source file has [.ts] twice in its name. *)
Definition table_root : node :=
  Dir [ (js "temp-material-web",
         Dir [ (js "table",
                Dir [ (js "table.tsv.ts",
                       File (lines [ "@customElement('md-table')";
                                     "export class MdTable extends Table {}"
                                   ]%string)) ]) ]) ].

Definition sample_fs : FS := fs_of sample_root.

Definition button_path : path := [js "temp-material-web"; js "button"].

End Tree.

(** ** What the matcher computes *)

Module RegexFacts.

Lemma startsWith_app (l s : jsstring) : startsWith (l ++ s) l = true.
Proof.
  induction l as [|a l IH]; simpl; [reflexivity|].
  now rewrite N.eqb_refl.
Qed.

Lemma startsWith_inv (l s : jsstring) :
  startsWith s l = true -> exists s', s = l ++ s'.
Proof.
  revert s; induction l as [|a l IH]; intros s H.
  - now exists s.
  - destruct s as [|b s]; simpl in H; [discriminate|].
    apply andb_true_iff in H as [Hab H].
    apply N.eqb_eq in Hab; subst b.
    destruct (IH _ H) as [s' ->]. now exists s'.
Qed.

Lemma skipn_length_app (l s : jsstring) : skipn (length l) (l ++ s) = s.
Proof. induction l; simpl; auto. Qed.

Lemma firstn_length_app (l s : jsstring) : firstn (length l) (l ++ s) = l.
Proof. induction l; simpl; congruence. Qed.

Lemma orelse_some {A} (x y : option A) (v : A) :
  orelse x y = Some v -> x = Some v \/ (x = None /\ y = Some v).
Proof. destruct x; simpl; auto. Qed.

Lemma orelse_not_none {A} (x y : option A) :
  x <> None \/ y <> None -> orelse x y <> None.
Proof. destruct x; simpl; intros [H|H]; congruence. Qed.

Ltac rw_cls :=
  match goal with H : ?p ?c = true |- _ => rewrite H end.

Section Loops.
Context {A : Type}.
Implicit Types (k : nat -> jsstring -> option A).

Lemma star_greedy_sound p s : forall n k x,
  star_greedy p n s k = Some x ->
  exists w s', s = w ++ s' /\ forallb p w = true /\
               k (n + length w) s' = Some x.
Proof.
  induction s as [|c s IH]; intros n k x H; simpl in H.
  - exists [], []. now rewrite Nat.add_0_r.
  - destruct (p c) eqn:Hc.
    + apply orelse_some in H as [H|[_ H]].
      * destruct (IH _ _ _ H) as (w & s' & -> & Hw & Hk).
        exists (c :: w), s'; simpl. rewrite Hc, Hw.
        now rewrite Nat.add_succ_r.
      * exists [], (c :: s). now rewrite Nat.add_0_r.
    + exists [], (c :: s). now rewrite Nat.add_0_r.
Qed.

Lemma star_lazy_sound p s : forall n k x,
  star_lazy p n s k = Some x ->
  exists w s', s = w ++ s' /\ forallb p w = true /\
               k (n + length w) s' = Some x.
Proof.
  induction s as [|c s IH]; intros n k x H; simpl in H;
    apply orelse_some in H as [H|[_ H]].
  - exists [], []. now rewrite Nat.add_0_r.
  - discriminate.
  - exists [], (c :: s). now rewrite Nat.add_0_r.
  - destruct (p c) eqn:Hc; [|discriminate].
    destruct (IH _ _ _ H) as (w & s' & -> & Hw & Hk).
    exists (c :: w), s'; simpl. rewrite Hc, Hw.
    now rewrite Nat.add_succ_r.
Qed.

Lemma star_greedy_complete p w s' : forall n k,
  forallb p w = true -> k (n + length w) s' <> None ->
  star_greedy p n (w ++ s') k <> None.
Proof.
  induction w as [|c w IH]; intros n k Hw Hk; simpl in *.
  - rewrite Nat.add_0_r in Hk.
    destruct s' as [|c s']; simpl; auto.
    destruct (p c); auto. apply orelse_not_none; auto.
  - apply andb_true_iff in Hw as [Hc Hw]. rewrite Hc.
    apply orelse_not_none; left. apply IH; auto.
    now rewrite Nat.add_succ_r in Hk.
Qed.

Lemma star_lazy_complete p w s' : forall n k,
  forallb p w = true -> k (n + length w) s' <> None ->
  star_lazy p n (w ++ s') k <> None.
Proof.
  induction w as [|c w IH]; intros n k Hw Hk; simpl in *.
  - rewrite Nat.add_0_r in Hk.
    destruct s'; simpl; apply orelse_not_none; auto.
  - apply andb_true_iff in Hw as [Hc Hw]. rewrite Hc.
    apply orelse_not_none; right. apply IH; auto.
    now rewrite Nat.add_succ_r in Hk.
Qed.

(** A match the matcher finds is a match of the declarative reading. *)
Lemma m_sound r : forall st (k : mstate -> option A) x,
  m r st k = Some x ->
  exists w s' cs',
    rest st = w ++ s' /\ sem r (pos st) w (caps st) cs' /\
    k (MState (pos st + length w) s' cs') = Some x.
Proof.
  induction r as [l|p|p|p|p| |a IHa b IHb|i a IHa]; intros st k x H;
    simpl in H.
  - destruct (startsWith (rest st) l) eqn:Hl; [|discriminate].
    destruct (startsWith_inv _ _ Hl) as [s' Hs].
    rewrite Hs, skipn_length_app in H.
    exists l, s', (caps st). repeat split; auto. constructor.
  - destruct (rest st) as [|c s'] eqn:Hs; [discriminate|].
    destruct (p c) eqn:Hc; [|discriminate].
    exists [c], s', (caps st). simpl. rewrite Nat.add_1_r.
    repeat split; auto. now constructor.
  - apply star_greedy_sound in H as (w & s' & Hs & Hw & Hk).
    exists w, s', (caps st). repeat split; auto. now constructor.
  - apply star_lazy_sound in H as (w & s' & Hs & Hw & Hk).
    exists w, s', (caps st). repeat split; auto. now constructor.
  - assert (Hnone : k st = Some x ->
      exists w s' cs', rest st = w ++ s' /\
        sem (Opt p) (pos st) w (caps st) cs' /\
        k (MState (pos st + length w) s' cs') = Some x).
    { intros Hk. exists [], (rest st), (caps st). simpl.
      rewrite Nat.add_0_r. destruct st; simpl in *.
      repeat split; auto. constructor. }
    destruct (rest st) as [|c s'] eqn:Hs; auto.
    destruct (p c) eqn:Hc; auto.
    apply orelse_some in H as [H|[_ H]]; auto.
    exists [c], s', (caps st). simpl. rewrite Nat.add_1_r.
    repeat split; auto. now constructor.
  - destruct (pos st =? 0) eqn:Hp; [|discriminate].
    apply Nat.eqb_eq in Hp.
    exists [], (rest st), (caps st). simpl. rewrite Nat.add_0_r.
    destruct st; simpl in *. subst. repeat split; auto. constructor.
  - apply IHa in H as (w1 & s1 & cs1 & Hs1 & Ha & H).
    apply IHb in H as (w2 & s2 & cs2 & Hs2 & Hb & H). simpl in *.
    exists (w1 ++ w2), s2, cs2.
    rewrite length_app, Nat.add_assoc, <- app_assoc, <- Hs2.
    repeat split; auto. econstructor; eauto.
  - apply IHa in H as (w & s' & cs' & Hs & Ha & H). simpl in H.
    replace (pos st + length w - pos st) with (length w) in H by lia.
    rewrite Hs, firstn_length_app in H.
    exists w, s', ((i, w) :: cs'). repeat split; auto. now constructor.
Qed.

(** Where the declarative reading has a match after which the rest of the
    pattern succeeds, the matcher finds some match. *)
Lemma m_complete r : forall st (k : mstate -> option A) w s' cs',
  rest st = w ++ s' -> sem r (pos st) w (caps st) cs' ->
  k (MState (pos st + length w) s' cs') <> None ->
  m r st k <> None.
Proof.
  induction r as [l|p|p|p|p| |a IHa b IHb|i a IHa];
    intros st k w s' cs' Hs Hsem Hk; inversion Hsem; subst; simpl.
  - rewrite Hs, startsWith_app, skipn_length_app. exact Hk.
  - rewrite Hs; simpl. rw_cls. simpl in Hk.
    now rewrite Nat.add_1_r in Hk.
  - rewrite Hs. apply star_greedy_complete; auto.
  - rewrite Hs. apply star_lazy_complete; auto.
  - rewrite Hs; simpl. rw_cls. apply orelse_not_none; left.
    simpl in Hk. now rewrite Nat.add_1_r in Hk.
  - simpl in Hk. rewrite Nat.add_0_r in Hk.
    assert (Hst : MState (pos st) s' (caps st) = st)
      by (destruct st; simpl in *; congruence).
    rewrite Hst in Hk.
    destruct (rest st) as [|c t]; auto.
    destruct (p c); auto. apply orelse_not_none; auto.
  - match goal with H : 0 = pos st |- _ => rewrite <- H end.
    simpl. simpl in Hk. rewrite Nat.add_0_r in Hk.
    assert (Hst : MState (pos st) s' (caps st) = st)
      by (destruct st; simpl in *; congruence).
    now rewrite Hst in Hk.
  - rewrite <- app_assoc in Hs.
    eapply IHa; eauto.
    eapply IHb; simpl; eauto.
    now rewrite length_app, Nat.add_assoc in Hk.
  - eapply IHa; eauto. simpl.
    replace (pos st + length w - pos st) with (length w) by lia.
    now rewrite Hs, firstn_length_app.
Qed.

End Loops.

Lemma match_at_sound r n s x :
  match_at r n s = Some x ->
  exists w, s = w ++ m_rest x /\ m_start x = n /\ m_end x = n + length w /\
            sem r n w [] (m_caps x).
Proof.
  unfold match_at; intros H.
  apply m_sound in H as (w & s' & cs' & Hs & Hsem & Hk); simpl in *.
  injection Hk as <-. exists w; simpl. auto.
Qed.

Lemma match_at_complete r n w s' cs :
  sem r n w [] cs -> match_at r n (w ++ s') <> None.
Proof.
  intros Hsem. unfold match_at.
  eapply m_complete with (w := w) (s' := s'); simpl; eauto. discriminate.
Qed.

(** [search_from] returns the leftmost match. *)
Lemma search_sound r s : forall n x,
  search_from r n s = Some x ->
  exists pre w,
    s = pre ++ w ++ m_rest x /\ m_start x = n + length pre /\
    m_end x = m_start x + length w /\ sem r (m_start x) w [] (m_caps x) /\
    forall pre' w' post' cs',
      s = pre' ++ w' ++ post' -> sem r (n + length pre') w' [] cs' ->
      length pre <= length pre'.
Proof.
  induction s as [|c s IH]; intros n x H; simpl in H.
  - destruct (match_at r n []) eqn:Hm; [|discriminate].
    injection H as ->.
    apply match_at_sound in Hm as (w & Hs & Hst & Hen & Hsem).
    exists [], w; simpl. rewrite Hst, Nat.add_0_r.
    repeat split; auto. intros; lia.
  - destruct (match_at r n (c :: s)) eqn:Hm.
    + injection H as ->.
      apply match_at_sound in Hm as (w & Hs & Hst & Hen & Hsem).
      exists [], w; simpl. rewrite Hst, Nat.add_0_r.
      repeat split; auto. intros; lia.
    + apply IH in H as (pre & w & Hs & Hst & Hen & Hsem & Hleft).
      exists (c :: pre), w; simpl. rewrite Hs, Nat.add_succ_r.
      repeat split; auto.
      intros [|c' pre'] w' post' cs' Heq Hsem'; simpl in *.
      * rewrite Nat.add_0_r in Hsem'. exfalso.
        apply (match_at_complete post' Hsem'). now rewrite <- Heq, <- Hs.
      * injection Heq as -> Heq. rewrite Nat.add_succ_r in Hsem'.
        rewrite <- Hs in Heq.
        specialize (Hleft _ _ _ _ Heq Hsem'). lia.
Qed.

Lemma search_none r s : forall n,
  search_from r n s = None ->
  forall pre w post cs,
    s = pre ++ w ++ post -> ~ sem r (n + length pre) w [] cs.
Proof.
  induction s as [|c s IH]; intros n H pre w post cs Heq Hsem; simpl in H.
  - destruct (match_at r n []) eqn:Hm; [discriminate|].
    symmetry in Heq. apply app_eq_nil in Heq as [-> Heq]. simpl in *.
    rewrite Nat.add_0_r in Hsem.
    apply (match_at_complete post Hsem). now rewrite Heq.
  - destruct (match_at r n (c :: s)) eqn:Hm; [discriminate|].
    destruct pre as [|c' pre]; simpl in *.
    + rewrite Nat.add_0_r in Hsem.
      apply (match_at_complete post Hsem). now rewrite <- Heq.
    + injection Heq as -> Heq. rewrite Nat.add_succ_r in Hsem.
      exact (IH _ H _ _ _ _ Heq Hsem).
Qed.

(** A match [search_from] returns is the match at its start. *)
Lemma search_from_at r s : forall n x,
  search_from r n s = Some x ->
  exists pre s2, s = pre ++ s2 /\ match_at r (n + length pre) s2 = Some x.
Proof.
  induction s as [|c s IH]; intros n x H; simpl in H.
  - destruct (match_at r n []) eqn:Hm; [|discriminate].
    injection H as ->. exists [], []. now rewrite Nat.add_0_r.
  - destruct (match_at r n (c :: s)) eqn:Hm.
    + injection H as ->. exists [], (c :: s). now rewrite Nat.add_0_r.
    + apply IH in H as (pre & s2 & -> & H).
      exists (c :: pre), s2. simpl. now rewrite Nat.add_succ_r.
Qed.

(** Before a continuation that cannot fail, the greedy star takes every
    character of its class. *)
Lemma star_greedy_total {A} p s : forall n (k : nat -> jsstring -> option A),
  (forall n' s', k n' s' <> None) ->
  exists w s',
    s = w ++ s' /\ forallb p w = true /\
    match s' with [] => True | c :: _ => p c = false end /\
    star_greedy p n s k = k (n + length w) s'.
Proof.
  induction s as [|c s IH]; intros n k Hk.
  - exists [], []. simpl. now rewrite Nat.add_0_r.
  - simpl. destruct (p c) eqn:Hc.
    + destruct (IH (S n) k Hk) as (w & s' & -> & Hw & Hs' & E).
      exists (c :: w), s'. simpl. rewrite Hc, Hw, E, Nat.add_succ_r.
      repeat split; auto. simpl.
      destruct (k (S (n + length w)) s') eqn:K; [reflexivity|].
      now apply Hk in K.
    + exists [], (c :: s). simpl. now rewrite Hc, Nat.add_0_r.
Qed.

Lemma app_eq_length {T} (a a' b b' : list T) :
  length a = length a' -> a ++ b = a' ++ b' -> a = a' /\ b = b'.
Proof.
  revert a'; induction a as [|x a IH]; intros [|x' a'] Hl H; simpl in *;
    try discriminate; auto.
  injection H as -> H. injection Hl as Hl.
  destruct (IH _ Hl H) as [-> ->]. auto.
Qed.

(** A run of characters of a class, followed by something that does not go
    on with the class, is determined by the text. *)
Lemma run_unique (p : N -> bool) (u : jsstring) : forall u' post post',
  forallb p u = true -> forallb p u' = true ->
  match post with [] => True | c :: _ => p c = false end ->
  match post' with [] => True | c :: _ => p c = false end ->
  u ++ post = u' ++ post' -> u = u' /\ post = post'.
Proof.
  induction u as [|c u IH]; intros [|c' u'] post post' Hu Hu' Hp Hp' H;
    simpl in *.
  - auto.
  - subst post. apply andb_true_iff in Hu' as [Hc _]. congruence.
  - subst post'. apply andb_true_iff in Hu as [Hc _]. congruence.
  - injection H as -> H.
    apply andb_true_iff in Hu as [_ Hu], Hu' as [_ Hu'].
    destruct (IH _ _ _ Hu Hu' Hp Hp' H) as [-> ->]. auto.
Qed.

(** What is left after a match is no longer than the input. *)
Lemma search_rest_length r s n x :
  search_from r n s = Some x ->
  length (m_rest x) + (m_end x - m_start x) <= length s.
Proof.
  intros H. apply search_sound in H as (pre & w & Hs & _ & Hen & _).
  rewrite Hs, !length_app. lia.
Qed.

(** The fuel of [matchAll] never runs out: more of it changes nothing. *)
Lemma matchAll_from_fuel r : forall fuel fuel' n s,
  length s < fuel -> length s < fuel' ->
  matchAll_from fuel r n s = matchAll_from fuel' r n s.
Proof.
  induction fuel as [|fuel IH]; intros [|fuel'] n s H H'; try lia.
  simpl. destruct (search_from r n s) as [x|] eqn:Hx; [|reflexivity].
  pose proof (search_rest_length _ _ _ Hx) as Hlen.
  f_equal. destruct (m_end x =? m_start x) eqn:He.
  - destruct (m_rest x) as [|c t]; [reflexivity|].
    simpl in Hlen. apply IH; lia.
  - apply Nat.eqb_neq in He.
    assert (m_start x <= m_end x).
    { apply search_sound in Hx as (? & ? & _ & _ & Hen & _). lia. }
    apply IH; lia.
Qed.

(** Every element [matchAll] yields is a match of the regex. *)
Lemma matchAll_from_sem r : forall fuel n s x,
  In x (matchAll_from fuel r n s) ->
  exists n' w, sem r n' w [] (m_caps x).
Proof.
  induction fuel as [|fuel IH]; simpl; intros n s x H; [contradiction|].
  destruct (search_from r n s) as [y|] eqn:Hy; [|contradiction].
  destruct H as [<-|H].
  - apply search_sound in Hy as (_ & w & _ & _ & _ & Hsem & _). eauto.
  - destruct (m_end y =? m_start y).
    + destruct (m_rest y); [contradiction|]. eauto.
    + eauto.
Qed.

Lemma matchAll_fuel_enough r s fuel :
  length s < fuel -> matchAll_from fuel r 0 s = matchAll r s.
Proof. intros H. unfold matchAll. apply matchAll_from_fuel; lia. Qed.

End RegexFacts.

(** ** Objects: reading back what was assigned *)

Module ObjFacts.
Import Obj.

Lemma eqs_eq (a b : jsstring) : eqs a b = true <-> a = b.
Proof.
  revert b; induction a as [|x a IH]; intros [|y b]; simpl;
    try (split; [discriminate|congruence]); [tauto|].
  rewrite andb_true_iff, N.eqb_eq, IH. split.
  - intros [-> ->]. reflexivity.
  - intros H; injection H; auto.
Qed.

Lemma eqs_refl (a : jsstring) : eqs a a = true.
Proof. now apply eqs_eq. Qed.

Lemma eqs_neq (a b : jsstring) : eqs a b = false <-> a <> b.
Proof.
  rewrite <- eqs_eq. destruct (eqs a b); split; congruence.
Qed.

Lemma get_set_own (o : jsobj) (k v k' : jsstring) :
  get (set_own o k v) k' = if eqs k k' then Some v else get o k'.
Proof.
  induction o as [|[k0 v0] o IH]; simpl.
  - reflexivity.
  - destruct (eqs k0 k) eqn:E0; simpl.
    + apply eqs_eq in E0; subst k0.
      destruct (eqs k k'); reflexivity.
    + destruct (eqs k0 k') eqn:E1; auto.
      apply eqs_eq in E1; subst k0.
      destruct (eqs k k') eqn:E2; auto.
      apply eqs_eq in E2; subst. rewrite eqs_refl in E0. discriminate.
Qed.

Lemma set_own_keys_in (o : jsobj) (k v k' : jsstring) :
  In k' (map fst (set_own o k v)) <-> k' = k \/ In k' (map fst o).
Proof.
  induction o as [|[k0 v0] o IH]; simpl.
  - intuition.
  - destruct (eqs k0 k) eqn:E0; simpl.
    + apply eqs_eq in E0; subst. intuition.
    + rewrite IH. intuition.
Qed.

Lemma set_own_NoDup (o : jsobj) (k v : jsstring) :
  NoDup (map fst o) -> NoDup (map fst (set_own o k v)).
Proof.
  induction o as [|[k0 v0] o IH]; simpl; intros H.
  - constructor; [intros []|constructor].
  - inversion H as [|? ? Hin Hnd]; subst.
    destruct (eqs k0 k) eqn:E0; simpl.
    + constructor; auto.
    + constructor; auto. rewrite set_own_keys_in. intros [->|Hk]; auto.
      rewrite eqs_refl in E0. discriminate.
Qed.

(** Assignment never duplicates a key. *)
Lemma set_NoDup (o : jsobj) (k v : jsstring) :
  NoDup (map fst o) -> NoDup (map fst (set o k v)).
Proof.
  unfold set. destruct (eqs k (js "__proto__")); auto using set_own_NoDup.
Qed.

(** Reading back after an assignment to a key other than [__proto__]. *)
Lemma get_set (o : jsobj) (k v k' : jsstring) :
  k <> js "__proto__" ->
  get (set o k v) k' = if eqs k k' then Some v else get o k'.
Proof.
  intros Hk. unfold set. apply eqs_neq in Hk. rewrite Hk.
  apply get_set_own.
Qed.

End ObjFacts.

(** ** The event extractor *)

Module EventFacts.
Import Obj ObjFacts RegexFacts Generate.

Lemma reactEventName_not_proto (e : jsstring) :
  reactEventName e <> js "__proto__".
Proof. unfold reactEventName. discriminate. Qed.

Lemma fires_loop_NoDup ms : forall o,
  NoDup (map fst o) -> NoDup (map fst (fires_loop ms o)).
Proof.
  induction ms as [|x ms IH]; simpl; intros o H; auto.
  apply IH, set_NoDup, H.
Qed.

Lemma fires_loop_get ms : forall o k e,
  get (fires_loop ms o) k = Some e ->
  (In e (map (group 1) ms) /\ k = reactEventName e) \/ get o k = Some e.
Proof.
  induction ms as [|x ms IH]; simpl; intros o k e H; auto.
  apply IH in H as [[Hin Hk]|H]; auto.
  rewrite get_set in H by apply reactEventName_not_proto.
  destruct (eqs (reactEventName (group 1 x)) k) eqn:E; auto.
  apply eqs_eq in E. injection H as <-. auto.
Qed.

Lemma fires_loop_keeps ms : forall o k,
  get o k <> None -> get (fires_loop ms o) k <> None.
Proof.
  induction ms as [|x ms IH]; simpl; intros o k H; auto.
  apply IH. rewrite get_set by apply reactEventName_not_proto.
  destruct (eqs (reactEventName (group 1 x)) k); [discriminate|auto].
Qed.

Lemma fires_loop_has ms : forall o e,
  In e (map (group 1) ms) -> get (fires_loop ms o) (reactEventName e) <> None.
Proof.
  induction ms as [|x ms IH]; simpl; intros o e He; [contradiction|].
  destruct He as [He|He]; auto.
  subst e. apply fires_loop_keeps.
  rewrite get_set, eqs_refl by apply reactEventName_not_proto. discriminate.
Qed.

Lemma toUpperCase1_collision (c1 c2 : N) :
  toUpperCase1 c1 = toUpperCase1 c2 -> c1 <> c2 ->
  (is_lower c1 = true /\ c2 = (c1 - 32)%N) \/
  (is_lower c2 = true /\ c1 = (c2 - 32)%N).
Proof.
  unfold toUpperCase1.
  destruct (is_lower c1) eqn:L1, (is_lower c2) eqn:L2; intros H Hne;
    injection H as H; auto; try congruence.
  exfalso. apply Hne.
  unfold is_lower in *.
  apply andb_true_iff in L1 as [L1 _], L2 as [L2 _].
  apply N.leb_le in L1, L2. lia.
Qed.

(** Two event names share a handler name only when they are the same name
    or differ in their first character alone. *)
Lemma reactEventName_eq (e1 e2 : jsstring) :
  reactEventName e1 = reactEventName e2 ->
  e1 = e2 \/
  exists c1 c2 t, e1 = c1 :: t /\ e2 = c2 :: t /\ c1 <> c2 /\
                  toUpperCase1 c1 = toUpperCase1 c2.
Proof.
  unfold reactEventName. intros H. apply app_inv_head in H.
  destruct e1 as [|c1 t1], e2 as [|c2 t2]; simpl in H; auto.
  - unfold toUpperCase1 in H. destruct (is_lower c2); discriminate.
  - unfold toUpperCase1 in H. destruct (is_lower c1); discriminate.
  - assert (Hu : toUpperCase1 c1 = toUpperCase1 c2 /\ t1 = t2).
    { unfold toUpperCase1 in *.
      destruct (is_lower c1), (is_lower c2); simpl in H;
        injection H as H1 H2; subst; rewrite ?H1; auto. }
    destruct Hu as [Hu ->].
    destruct (N.eq_dec c1 c2) as [->|Hne]; auto.
    right. exists c1, c2, t2. auto.
Qed.

(** Every event name an annotation gives is a non-empty run of word
    characters, the characters [toUpperCase1] is exact on. *)
Lemma fires_names_words content e :
  In e (map (group 1) (matchAll fires_re content)) ->
  e <> [] /\ forallb is_word e = true.
Proof.
  intros H. apply in_map_iff in H as (x & <- & Hx).
  apply matchAll_from_sem in Hx as (n & w & Hsem).
  unfold fires_re, Plus in Hsem.
  repeat match goal with
  | H : sem (Seq _ _) _ _ _ _ |- _ => inversion H; subst; clear H
  | H : sem (Group _ _) _ _ _ _ |- _ => inversion H; subst; clear H
  | H : sem (Lit _) _ _ _ _ |- _ => inversion H; subst; clear H
  | H : sem (Cls _) _ _ _ _ |- _ => inversion H; subst; clear H
  | H : sem (Star _) _ _ _ _ |- _ => inversion H; subst; clear H
  end.
  unfold group.
  match goal with H : _ = m_caps x |- _ => rewrite <- H end.
  simpl. split; [discriminate|].
  repeat match goal with H : is_word _ = true |- _ => rewrite H; clear H end.
  assumption.
Qed.

Lemma extractEvents_loop_skip fs internalPath pre : forall files,
  (forall g, In g pre -> is_internal_candidate g = false) ->
  extractEvents_loop fs internalPath (pre ++ files) =
  extractEvents_loop fs internalPath files.
Proof.
  induction pre as [|g pre IH]; simpl; intros files H; auto.
  rewrite (H g) by auto. apply IH. auto.
Qed.

(** What [extractEvents] returns when the listing of [internal] has a
    first candidate: whatever reading that file gives, nothing else. *)
Lemma extractEvents_first fs componentPath pre file post :
  readdir fs (componentPath ++ [js "internal"]) = Some (pre ++ file :: post) ->
  (forall g, In g pre -> is_internal_candidate g = false) ->
  is_internal_candidate file = true ->
  extractEvents fs componentPath =
  match readFile fs ((componentPath ++ [js "internal"]) ++ [file]) with
  | Some content => fires_loop (matchAll fires_re content) []
  | None => []
  end.
Proof.
  intros Hdir Hpre Hfile. unfold extractEvents. rewrite Hdir.
  rewrite extractEvents_loop_skip by assumption. simpl. rewrite Hfile.
  now destruct (readFile fs _).
Qed.

End EventFacts.

(** ** The variant extractor *)

Module VariantFacts.
Import Obj ObjFacts RegexFacts Generate.

Ltac inv_sem :=
  repeat match goal with
  | H : sem (Seq _ _) _ _ _ _ |- _ => inversion H; subst; clear H
  | H : sem (Group _ _) _ _ _ _ |- _ => inversion H; subst; clear H
  | H : sem (Lit _) _ _ _ _ |- _ => inversion H; subst; clear H
  | H : sem (Cls _) _ _ _ _ |- _ => inversion H; subst; clear H
  | H : sem (Star _) _ _ _ _ |- _ => inversion H; subst; clear H
  | H : sem (StarLazy _) _ _ _ _ |- _ => inversion H; subst; clear H
  | H : sem (Plus _) _ _ _ _ |- _ => unfold Plus in H
  end.

Lemma sem_plus_intro p c u n cs :
  p c = true -> forallb p u = true -> sem (Plus p) n (c :: u) cs cs.
Proof.
  intros Hc Hu. change (c :: u) with ([c] ++ u).
  unfold Plus. econstructor; constructor; auto.
Qed.

Lemma sem_className_inv n w cs :
  sem className_re n w [] cs ->
  exists u, w = js "export class " ++ js "Md" ++ u /\ u <> [] /\
            forallb is_word u = true /\ cs = [(1, js "Md" ++ u)].
Proof.
  unfold className_re. intros H. inv_sem.
  match goal with
  | Hc : is_word ?c = true, Hw : forallb is_word ?w = true |- _ =>
      exists (c :: w); simpl; rewrite Hc, Hw
  end.
  repeat split; auto. discriminate.
Qed.

Lemma sem_className_intro n u :
  u <> [] -> forallb is_word u = true ->
  sem className_re n (js "export class Md" ++ u) [] [(1, js "Md" ++ u)].
Proof.
  intros Hu Hw. destruct u as [|c u]; [congruence|].
  simpl in Hw. apply andb_true_iff in Hw as [Hc Hw].
  change (js "export class Md" ++ c :: u)
    with (js "export class " ++ (js "Md" ++ c :: u)).
  unfold className_re.
  repeat first [ apply sem_plus_intro; assumption | econstructor ].
Qed.

Lemma sem_tagName_inv n w cs :
  sem tagName_re n w [] cs ->
  exists q1 t q2,
    w = js "@customElement(" ++ q1 :: t ++ q2 :: js ")" /\
    c_quote q1 = true /\ c_quote q2 = true /\ t <> [] /\
    forallb c_notquote t = true /\ cs = [(1, t)].
Proof.
  unfold tagName_re. intros H. inv_sem.
  match goal with
  | H1 : c_quote ?a = true, H2 : c_quote ?b = true,
    Hc : c_notquote ?c = true, Hw : forallb c_notquote ?w = true |- _ =>
      first
        [ solve [ exists a, (c :: w), b; simpl; rewrite Hc, Hw;
                  repeat split; auto; discriminate ]
        | solve [ exists b, (c :: w), a; simpl; rewrite Hc, Hw;
                  repeat split; auto; discriminate ] ]
  end.
Qed.

Lemma sem_tagName_intro n q1 t q2 :
  c_quote q1 = true -> c_quote q2 = true -> t <> [] ->
  forallb c_notquote t = true ->
  sem tagName_re n (js "@customElement(" ++ q1 :: t ++ q2 :: js ")") []
    [(1, t)].
Proof.
  intros H1 H2 Ht Hw. destruct t as [|c t]; [congruence|].
  simpl in Hw. apply andb_true_iff in Hw as [Hc Hw].
  change (js "@customElement(" ++ q1 :: (c :: t) ++ q2 :: js ")")
    with (js "@customElement(" ++ ([q1] ++ ((c :: t) ++ ([q2] ++ js ")")))).
  unfold tagName_re.
  repeat first [ apply sem_plus_intro; assumption | econstructor; eauto ].
Qed.

(** The greedy [\w+] that ends the class-name regex leaves no word
    character behind. *)
Lemma match_at_className_rest n s x :
  match_at className_re n s = Some x -> stops is_word (m_rest x).
Proof.
  unfold match_at, className_re, Plus. cbn [m pos rest caps].
  destruct (startsWith s (js "export class ")); [|discriminate].
  destruct (startsWith _ (js "Md")); [|discriminate].
  destruct (skipn _ (skipn _ s)) as [|c s']; [discriminate|].
  destruct (is_word c); [|discriminate].
  intros H.
  match type of H with
  | star_greedy ?p ?n0 ?s0 ?k = Some _ =>
      destruct (@star_greedy_total _ p s0 n0 k) as (w & s2 & _ & _ & Hs2 & E);
        [intros; discriminate|]
  end.
  rewrite E in H. injection H as <-. exact Hs2.
Qed.

Lemma extractClassName_first content cn :
  extractClassName content = Some cn -> first_class_match content cn.
Proof.
  unfold extractClassName, exec.
  destruct (search_from className_re 0 content) as [x|] eqn:Hx;
    [|discriminate].
  intros H; injection H as <-.
  pose proof (search_from_at _ _ _ Hx) as (pre0 & s2 & _ & Hat).
  apply match_at_className_rest in Hat.
  apply search_sound in Hx as (pre & w & Hs & Hst & _ & Hsem & Hleft).
  apply sem_className_inv in Hsem as (u & -> & Hu & Hw & Hcs).
  unfold group. rewrite Hcs. simpl cap. cbv iota.
  exists pre, u, (m_rest x). rewrite <- app_assoc in Hs.
  repeat split; auto.
  intros pre' u' post' Heq Hu' Hw'.
  apply (Hleft pre' (js "export class Md" ++ u') post' [(1, js "Md" ++ u')]).
  - now rewrite <- app_assoc.
  - now apply sem_className_intro.
Qed.

Lemma extractClassName_none content :
  extractClassName content = None ->
  forall pre u post,
    content = pre ++ js "export class Md" ++ u ++ post ->
    u <> [] -> forallb is_word u = true -> False.
Proof.
  unfold extractClassName, exec.
  destruct (search_from className_re 0 content) as [x|] eqn:Hx;
    [discriminate|].
  intros _ pre u post Heq Hu Hw.
  apply (@search_none className_re content 0 Hx pre
           (js "export class Md" ++ u) post [(1, js "Md" ++ u)]).
  - now rewrite <- app_assoc.
  - now apply sem_className_intro.
Qed.

Lemma extractTagName_first content tn :
  extractTagName content = Some tn -> first_tag_match content tn.
Proof.
  unfold extractTagName, exec.
  destruct (search_from tagName_re 0 content) as [x|] eqn:Hx;
    [|discriminate].
  intros H; injection H as <-.
  apply search_sound in Hx as (pre & w & Hs & Hst & _ & Hsem & Hleft).
  apply sem_tagName_inv in Hsem as (q1 & t & q2 & -> & H1 & H2 & Ht & Hw & Hcs).
  unfold group. rewrite Hcs. simpl cap. cbv iota.
  exists pre, q1, q2, (m_rest x).
  repeat split; auto.
  - rewrite Hs. f_equal. rewrite <- !app_assoc. simpl.
    now rewrite <- !app_assoc.
  - intros pre' q1' t' q2' post' Heq H1' H2' Ht' Hw'.
    apply (Hleft pre' (js "@customElement(" ++ q1' :: t' ++ q2' :: js ")")
             post' [(1, t')]).
    + rewrite Heq. f_equal. rewrite <- !app_assoc. simpl.
      now rewrite <- !app_assoc.
    + now apply sem_tagName_intro.
Qed.

(** The two extractions return exactly the leftmost matches. *)
Lemma extractClassName_complete content cn :
  first_class_match content cn -> extractClassName content = Some cn.
Proof.
  intros (pre & u & post & Hc & -> & Hu & Hw & Hmax & Hleft).
  destruct (extractClassName content) as [cn'|] eqn:E.
  - apply extractClassName_first in E
      as (pre' & u' & post' & Hc' & -> & Hu' & Hw' & Hmax' & Hleft').
    assert (Hlen : length pre = length pre').
    { apply Nat.le_antisymm.
      - apply (Hleft pre' u' post'); auto.
      - apply (Hleft' pre u post); auto. }
    rewrite Hc in Hc'.
    apply (app_eq_length _ _ _ _ Hlen) in Hc' as [_ Hc'].
    rewrite <- !app_assoc in Hc'. do 2 apply app_inv_head in Hc'.
    destruct (run_unique is_word _ _ _ _ Hw Hw' Hmax Hmax' Hc') as [-> _].
    reflexivity.
  - exfalso. apply (@extractClassName_none content E pre u post); auto.
Qed.

Lemma extractTagName_none content :
  extractTagName content = None ->
  forall pre q1 tn q2 post,
    content = pre ++ js "@customElement(" ++ q1 :: tn ++ q2 :: js ")" ++ post ->
    c_quote q1 = true -> c_quote q2 = true -> tn <> [] ->
    forallb c_notquote tn = true -> False.
Proof.
  unfold extractTagName, exec.
  destruct (search_from tagName_re 0 content) as [x|] eqn:Hx;
    [discriminate|].
  intros _ pre q1 tn q2 post Heq H1 H2 Ht Hw.
  apply (@search_none tagName_re content 0 Hx pre
           (js "@customElement(" ++ q1 :: tn ++ q2 :: js ")") post [(1, tn)]).
  - rewrite Heq. f_equal. rewrite <- !app_assoc. simpl.
    now rewrite <- !app_assoc.
  - now apply sem_tagName_intro.
Qed.

Lemma extractTagName_complete content tn :
  first_tag_match content tn -> extractTagName content = Some tn.
Proof.
  intros (pre & q1 & q2 & post & Hc & H1 & H2 & Ht & Hw & Hleft).
  destruct (extractTagName content) as [tn'|] eqn:E.
  - apply extractTagName_first in E
      as (pre' & q1' & q2' & post' & Hc' & H1' & H2' & Ht' & Hw' & Hleft').
    assert (Hlen : length pre = length pre').
    { apply Nat.le_antisymm.
      - now apply (Hleft pre' q1' tn' q2' post').
      - now apply (Hleft' pre q1 tn q2 post). }
    rewrite Hc in Hc'.
    apply (app_eq_length _ _ _ _ Hlen) in Hc' as [_ Hc'].
    apply app_inv_head in Hc'. injection Hc' as _ Hc'.
    assert (Hq : forall q, c_quote q = true -> c_notquote q = false)
      by (intros q Hq; unfold c_notquote; now rewrite Hq).
    destruct (run_unique c_notquote tn tn' (q2 :: js ")" ++ post)
                (q2' :: js ")" ++ post') Hw Hw' (Hq _ H2) (Hq _ H2') Hc')
      as [-> _].
    reflexivity.
  - exfalso.
    exact (@extractTagName_none content E pre q1 tn q2 post Hc H1 H2 Ht Hw).
Qed.

Lemma first_class_truthy content cn :
  first_class_match content cn -> truthy cn = true.
Proof. intros (pre & u & post & _ & -> & _). reflexivity. Qed.

Lemma first_tag_truthy content tn :
  first_tag_match content tn -> truthy tn = true.
Proof.
  intros (pre & q1 & q2 & post & _ & _ & _ & Ht & _).
  destruct tn; [congruence|reflexivity].
Qed.

(** What [variant_of] returns, in terms of the two extractions. *)
Lemma variant_of_some fs componentPath componentName file content v :
  variant_of fs componentPath componentName file content = Some v ->
  includes content (js "@customElement") = true /\
  includes content (js "export class") = true /\
  extractClassName content = Some (className v) /\
  extractTagName content = Some (tagName v).
Proof.
  unfold variant_of.
  destruct (includes content (js "@customElement")); [|discriminate].
  destruct (includes content (js "export class")); [|discriminate].
  simpl. destruct (extractDocumentation content) as [d pd].
  destruct (extractClassName content) as [cn|]; [|discriminate].
  destruct (extractTagName content) as [tn|]; [|discriminate].
  destruct (truthy cn && truthy tn); [|discriminate].
  intros H; injection H as <-. auto.
Qed.

Lemma variant_of_succeeds fs componentPath componentName file content :
  includes content (js "@customElement") = true ->
  includes content (js "export class") = true ->
  extractClassName content <> None -> extractTagName content <> None ->
  variant_of fs componentPath componentName file content <> None.
Proof.
  intros H1 H2 Hc Ht. unfold variant_of. rewrite H1, H2. simpl.
  destruct (extractDocumentation content) as [d pd].
  destruct (extractClassName content) as [cn|] eqn:Ecn; [|congruence].
  destruct (extractTagName content) as [tn|] eqn:Etn; [|congruence].
  rewrite (first_class_truthy (extractClassName_first _ Ecn)).
  rewrite (first_tag_truthy (extractTagName_first _ Etn)).
  discriminate.
Qed.

Lemma findAll_loop_acc fs componentPath componentName files : forall acc,
  findAll_loop fs componentPath componentName files acc =
  match findAll_loop fs componentPath componentName files [] with
  | Some vs => Some (acc ++ vs)
  | None => None
  end.
Proof.
  induction files as [|f files IH]; simpl; intros acc.
  - now rewrite app_nil_r.
  - destruct (is_candidate f); auto.
    destruct (readFile fs (componentPath ++ [f])) as [content|]; auto.
    rewrite IH. symmetry. rewrite IH.
    destruct (findAll_loop fs componentPath componentName files []); auto.
    destruct (variant_of fs componentPath componentName f content);
      simpl; now rewrite ?app_nil_r, <- ?app_assoc.
Qed.

(** With every candidate file readable, the result is the entries'
    contributions, in listing order. *)
Lemma findAll_loop_flat fs componentPath componentName files :
  (forall f, In f files -> is_candidate f = true ->
             readFile fs (componentPath ++ [f]) <> None) ->
  findAll_loop fs componentPath componentName files [] =
  Some (flat_map (variants_of_file fs componentPath componentName) files).
Proof.
  induction files as [|f files IH]; simpl; intros H; auto.
  unfold variants_of_file at 1.
  destruct (is_candidate f) eqn:Hf; [|apply IH; auto].
  specialize (H f (or_introl eq_refl) Hf) as Hr.
  destruct (readFile fs (componentPath ++ [f])) as [content|]; [|congruence].
  rewrite findAll_loop_acc, IH by auto.
  now destruct (variant_of fs componentPath componentName f content).
Qed.

(** One rejected read of a candidate file makes the whole loop throw. *)
Lemma findAll_loop_rejected fs componentPath componentName files f :
  In f files -> is_candidate f = true ->
  readFile fs (componentPath ++ [f]) = None ->
  forall acc, findAll_loop fs componentPath componentName files acc = None.
Proof.
  induction files as [|g files IH]; simpl; intros Hin Hf Hr acc;
    [contradiction|].
  destruct Hin as [->|Hin].
  - now rewrite Hf, Hr.
  - destruct (is_candidate g); auto.
    destruct (readFile fs (componentPath ++ [g])); auto.
Qed.

(** Every variant of the result comes from a candidate file of the
    listing. *)
Lemma findAll_loop_origin fs componentPath componentName files :
  forall acc vs v,
    findAll_loop fs componentPath componentName files acc = Some vs ->
    In v vs ->
    In v acc \/
    exists file content,
      In file files /\ is_candidate file = true /\
      readFile fs (componentPath ++ [file]) = Some content /\
      variant_of fs componentPath componentName file content = Some v.
Proof.
  induction files as [|f files IH]; simpl; intros acc vs v H Hv.
  - injection H as <-. auto.
  - destruct (is_candidate f) eqn:Hf.
    + destruct (readFile fs (componentPath ++ [f])) as [content|] eqn:Hr;
        [|discriminate].
      destruct (IH _ _ _ H Hv) as [Hacc|(file & c & Hin & Hc & Hrd & Hvo)].
      * destruct (variant_of fs componentPath componentName f content)
          as [v'|] eqn:Hvo; auto.
        apply in_app_or in Hacc as [Hacc|[<-|[]]]; auto.
        right. exists f, content. auto.
      * right. exists file, c. auto.
    + destruct (IH _ _ _ H Hv) as [Hacc|(file & c & Hin & Hc & Hrd & Hvo)];
        auto.
      right. exists file, c. auto.
Qed.

End VariantFacts.

(** ** The walker and the generators *)

Module PipelineFacts.
Import Obj ObjFacts RegexFacts Generate VariantFacts.

Lemma extractEvents_loop_with_file fs componentPath file r files :
  extractEvents_loop (with_file fs (componentPath ++ [file]) r)
    (componentPath ++ [js "internal"]) files =
  extractEvents_loop fs (componentPath ++ [js "internal"]) files.
Proof.
  induction files as [|f files IH]; simpl; auto.
  destruct (is_internal_candidate f); auto.
  destruct (path_eq_dec _ _) as [E|_]; auto.
  apply (f_equal (@length _)) in E. rewrite !length_app in E.
  simpl in E. lia.
Qed.

Lemma extractEvents_with_file fs componentPath file r :
  extractEvents (with_file fs (componentPath ++ [file]) r) componentPath =
  extractEvents fs componentPath.
Proof.
  unfold extractEvents, readdir. simpl.
  destruct (readdirTypes fs _); simpl; auto.
  now rewrite extractEvents_loop_with_file.
Qed.

Lemma variant_of_with_file fs componentPath componentName file r f content :
  variant_of (with_file fs (componentPath ++ [file]) r) componentPath
    componentName f content =
  variant_of fs componentPath componentName f content.
Proof. unfold variant_of. now rewrite extractEvents_with_file. Qed.

(** What reading a file that is no candidate gives never matters. *)
Lemma findAll_loop_with_file fs componentPath componentName file r :
  is_candidate file = false ->
  forall files acc,
    findAll_loop (with_file fs (componentPath ++ [file]) r) componentPath
      componentName files acc =
    findAll_loop fs componentPath componentName files acc.
Proof.
  intros Hfile. induction files as [|f files IH]; simpl; intros acc; auto.
  destruct (is_candidate f) eqn:Hf; auto.
  destruct (path_eq_dec _ _) as [E|_].
  - apply app_inv_head in E. injection E as ->. congruence.
  - destruct (readFile fs (componentPath ++ [f])); auto.
    now rewrite variant_of_with_file, IH.
Qed.

Lemma analyze_loop_acc fs componentsPath entries : forall acc,
  analyze_loop fs componentsPath entries acc =
  acc ++ analyze_loop fs componentsPath entries [].
Proof.
  induction entries as [|e entries IH]; simpl; intros acc.
  - now rewrite app_nil_r.
  - destruct (is_component_entry e); auto.
    rewrite IH. symmetry. rewrite IH.
    destruct (0 <? length _); simpl; now rewrite ?app_nil_r, <- ?app_assoc.
Qed.

(** Every component of the analysis has the variants found in the directory
    of its name, and at least one. *)
Lemma analyze_loop_in fs componentsPath entries : forall acc c,
  In c (analyze_loop fs componentsPath entries acc) ->
  In c acc \/
  (exists e, In e entries /\ is_component_entry e = true /\ name c = fst e) /\
  variants c =
    findAllComponentVariants fs (componentsPath ++ [name c]) (name c) /\
  variants c <> [].
Proof.
  induction entries as [|e entries IH]; simpl; intros acc c H; auto.
  destruct (is_component_entry e) eqn:He.
  - apply IH in H as [H|[(e' & Hin & He' & Hn) Hv]].
    + destruct (findAllComponentVariants fs (componentsPath ++ [fst e]) (fst e))
        as [|v vs] eqn:Hvs; simpl in H; auto.
      apply in_app_or in H as [H|[<-|[]]]; auto.
      right. simpl. rewrite Hvs. repeat split; [|discriminate].
      exists e. auto.
    + right. split; auto. exists e'. auto.
  - apply IH in H as [H|[(e' & Hin & He' & Hn) Hv]]; auto.
    right. split; auto. exists e'. auto.
Qed.

(** A directory without variants leaves the analysis as it would be
    without the directory. *)
Lemma analyze_loop_zero fs componentsPath pre e post : forall acc,
  findAllComponentVariants fs (componentsPath ++ [fst e]) (fst e) = [] ->
  analyze_loop fs componentsPath (pre ++ e :: post) acc =
  analyze_loop fs componentsPath (pre ++ post) acc.
Proof.
  induction pre as [|e0 pre IH]; simpl; intros acc H.
  - rewrite H. simpl. now destruct (is_component_entry e).
  - destruct (is_component_entry e0); auto.
Qed.

Lemma createOutput_loop_spec clock components : forall t allExports written,
  createOutput_loop clock t components allExports written =
  (t + clock_reads components,
   allExports ++ flat_map exports_of components,
   written ++ wrapper_files clock t components).
Proof.
  induction components as [|c components IH]; simpl; intros t ex wr.
  - now rewrite Nat.add_0_r, !app_nil_r.
  - rewrite IH, <- !app_assoc. simpl.
    destruct (reads_clock c); simpl; now rewrite ?Nat.add_succ_r.
Qed.

(** What a run writes: the wrapper of each component, then the manifest of
    all their exports, stamped with the reading after those the wrappers
    made. *)
Lemma createOutputStructure_spec clock components :
  createOutputStructure clock components =
  wrapper_files clock 0 components ++
  [([OUTPUT_DIR; js "index.ts"],
    mainIndexContent (flat_map exports_of components)
      (clock (clock_reads components)))].
Proof.
  unfold createOutputStructure. now rewrite createOutput_loop_spec.
Qed.

Lemma join_cons2 sep (x y : jsstring) l :
  join sep (x :: y :: l) = x ++ sep ++ join sep (y :: l).
Proof. reflexivity. Qed.

Lemma wrapper_same_but_timestamp c ts1 ts2 :
  variants c <> [] ->
  same_but_timestamp (generateReactWrapper c ts1) (generateReactWrapper c ts2).
Proof.
  intros Hv. unfold generateReactWrapper.
  destruct (variants c) as [|v vs] eqn:E; [congruence|].
  cbv beta iota zeta delta [length Nat.eqb].
  unfold wrapper_header.
  repeat rewrite join_cons2. repeat rewrite <- app_assoc.
  eexists (js "/**" ++ nl ++
           js " * @fileoverview React wrappers for Material Web " ++
           name c ++ js " components" ++ nl ++ js " * "), ts1, ts2, _.
  repeat rewrite <- app_assoc.
  split; reflexivity.
Qed.

Lemma mainIndex_same_but_timestamp allExports ts1 ts2 :
  same_but_timestamp (mainIndexContent allExports ts1)
    (mainIndexContent allExports ts2).
Proof.
  unfold mainIndexContent.
  cbv zeta. repeat rewrite join_cons2. repeat rewrite <- app_assoc.
  eexists (js "/**" ++ nl ++
           js " * @fileoverview Main exports for all Material Web React components"
           ++ nl ++ js " * "), ts1, ts2, _.
  repeat rewrite <- app_assoc.
  split; reflexivity.
Qed.

Lemma wrapper_files_same_but_timestamp clock1 clock2 components :
  (forall c, In c components -> variants c <> []) ->
  forall t,
    Forall2 (fun w1 w2 => fst w1 = fst w2 /\
                          same_but_timestamp (snd w1) (snd w2))
      (wrapper_files clock1 t components) (wrapper_files clock2 t components).
Proof.
  induction components as [|c components IH]; simpl; intros H t;
    constructor; auto.
  simpl. split; auto. apply wrapper_same_but_timestamp. auto.
Qed.

(** The text of a wrapper is a frame that does not depend on the time,
    with the time written on its one line. *)
Lemma wrapper_template c :
  variants c <> [] ->
  exists before after,
    forall timestamp,
      generateReactWrapper c timestamp =
      before ++ nl ++ stamp_line timestamp ++ nl ++ after.
Proof.
  intros Hv. unfold generateReactWrapper.
  destruct (variants c) as [|v vs] eqn:E; [congruence|].
  cbv beta iota zeta delta [length Nat.eqb].
  unfold wrapper_header, stamp_line.
  eexists (js "/**" ++ nl ++
           js " * @fileoverview React wrappers for Material Web " ++
           name c ++ js " components" ++ nl ++ js " * "), _.
  intros timestamp.
  repeat rewrite join_cons2. repeat rewrite <- app_assoc.
  reflexivity.
Qed.

Lemma mainIndex_template allExports :
  exists before after,
    forall timestamp,
      mainIndexContent allExports timestamp =
      before ++ nl ++ stamp_line timestamp ++ nl ++ after.
Proof.
  unfold mainIndexContent, stamp_line. cbv zeta.
  eexists (js "/**" ++ nl ++
           js " * @fileoverview Main exports for all Material Web React components"
           ++ nl ++ js " * "), _.
  intros timestamp.
  repeat rewrite join_cons2. repeat rewrite <- app_assoc.
  reflexivity.
Qed.

Lemma fill_app clock a : forall t b,
  fill clock t (a ++ b) = fill clock t a ++ fill clock (t + length a) b.
Proof.
  induction a as [|[p [x y]] a IH]; simpl; intros t b.
  - now rewrite Nat.add_0_r.
  - now rewrite IH, Nat.add_succ_r.
Qed.

(** The wrappers of components that all have variants are frames filled
    with consecutive readings. *)
Lemma wrapper_files_fill components :
  (forall c, In c components -> variants c <> []) ->
  clock_reads components = length components /\
  exists templates,
    length templates = length components /\
    map fst templates =
      map (fun c => [OUTPUT_DIR; name c; js "index.tsx"]) components /\
    forall clock t, wrapper_files clock t components = fill clock t templates.
Proof.
  induction components as [|c components IH]; intros H.
  - split; [reflexivity|]. exists []. repeat split.
  - assert (Hc : variants c <> []) by (apply H; now left).
    destruct IH as (Hreads & templates & Hlen & Hpaths & Hfill).
    { intros c' Hc'. apply H. now right. }
    assert (Hr : reads_clock c = true).
    { unfold reads_clock. destruct (variants c); [congruence|reflexivity]. }
    destruct (@wrapper_template c Hc) as (before & after & Ht).
    split.
    + simpl. now rewrite Hr, Hreads.
    + exists (([OUTPUT_DIR; name c; js "index.tsx"], (before, after))
              :: templates).
      repeat split.
      * simpl. now rewrite Hlen.
      * simpl. now rewrite Hpaths.
      * intros clock t. simpl. now rewrite Hr, Ht, Hfill.
Qed.

(** Splitting at a separator splits what is before it and what is after
    it. *)
Lemma split_not_nil (sep : N) (s : jsstring) : split sep s <> [].
Proof.
  destruct s as [|c s]; simpl; [discriminate|].
  destruct (c =? sep)%N; [discriminate|].
  destruct (split sep s); discriminate.
Qed.

Lemma split_concat (sep : N) (a b : jsstring) :
  split sep (a ++ sep :: b) = split sep a ++ split sep b.
Proof.
  induction a as [|c a IH]; simpl.
  - now rewrite N.eqb_refl.
  - destruct (c =? sep)%N; [now rewrite IH|].
    rewrite IH. destruct (split sep a) eqn:E; [|reflexivity].
    now apply split_not_nil in E.
Qed.

Lemma split_single (sep : N) (x : jsstring) :
  ~ In sep x -> split sep x = [x].
Proof.
  induction x as [|c x IH]; simpl; intros H; auto.
  destruct (c =? sep)%N eqn:Hc.
  - apply N.eqb_eq in Hc. exfalso. auto.
  - rewrite IH; auto.
Qed.

(** The lines of a frame filled with a time that holds no line feed: the
    lines before, the line of the time, the lines after. *)
Lemma stamped_lines before timestamp after :
  ~ In 10%N timestamp ->
  split 10 (before ++ nl ++ stamp_line timestamp ++ nl ++ after) =
  split 10 before ++ stamp_line timestamp :: split 10 after.
Proof.
  intros H. unfold nl. cbn [app].
  rewrite split_concat. f_equal.
  rewrite split_concat, split_single; [reflexivity|].
  unfold stamp_line. intros Hin. apply in_app_or in Hin as [Hin|Hin]; auto.
  revert Hin. vm_compute. intuition discriminate.
Qed.

Lemma fill_differ clock1 clock2 templates :
  (forall t, ~ In 10%N (clock1 t)) -> (forall t, ~ In 10%N (clock2 t)) ->
  forall t,
    Forall2 (fun w1 w2 => fst w1 = fst w2 /\
                          differ_in_stamp_line (snd w1) (snd w2))
      (fill clock1 t templates) (fill clock2 t templates).
Proof.
  intros H1 H2.
  induction templates as [|[p [x y]] templates IH]; intros t; cbn [fill];
    constructor; auto.
  cbn [fst snd]. split; auto.
  exists (split 10 x), (clock1 t), (clock2 t), (split 10 y).
  now rewrite !stamped_lines.
Qed.

(** A run fills frames that depend on the file system alone. *)
Lemma run_template fs components :
  analyzeComponentStructure fs = Some components ->
  exists templates,
    map fst templates =
      map (fun c => [OUTPUT_DIR; name c; js "index.tsx"]) components ++
      [[OUTPUT_DIR; js "index.ts"]] /\
    forall clock, run fs clock = Some (fill clock 0 templates).
Proof.
  intros Ha.
  assert (Hne : forall c, In c components -> variants c <> []).
  { intros c Hc. unfold analyzeComponentStructure in Ha.
    destruct (readdirTypes fs [TEMP_DIR]); [|discriminate].
    injection Ha as <-.
    apply analyze_loop_in in Hc as [[]|(_ & _ & Hv)]. exact Hv. }
  destruct (@wrapper_files_fill components Hne)
    as (Hreads & templates & Hlen & Hpaths & Hfill).
  destruct (mainIndex_template (flat_map exports_of components))
    as (before & after & Hm).
  exists (templates ++ [([OUTPUT_DIR; js "index.ts"], (before, after))]).
  split.
  - now rewrite map_app, Hpaths.
  - intros clock. unfold run. rewrite Ha, createOutputStructure_spec.
    rewrite fill_app. f_equal. f_equal; [apply Hfill|].
    assert (E : clock_reads components = 0 + length templates)
      by (simpl; congruence).
    cbn [fill]. rewrite Hm, E. reflexivity.
Qed.

Lemma fill_paths clock templates : forall t,
  map fst (fill clock t templates) = map fst templates.
Proof.
  induction templates as [|[p [x y]] templates IH]; intros t; cbn [fill map];
    [reflexivity|].
  now rewrite IH.
Qed.

(** The paths a run writes. *)
Lemma run_paths fs clock out :
  run fs clock = Some out ->
  exists components,
    analyzeComponentStructure fs = Some components /\
    map fst out =
      map (fun c => [OUTPUT_DIR; name c; js "index.tsx"]) components ++
      [[OUTPUT_DIR; js "index.ts"]].
Proof.
  intros H.
  destruct (analyzeComponentStructure fs) as [components|] eqn:Ha.
  - destruct (@run_template fs components Ha) as (templates & Hpaths & Hrun).
    rewrite Hrun in H. injection H as <-.
    exists components. split; [reflexivity|]. now rewrite fill_paths.
  - unfold run in H. rewrite Ha in H. discriminate.
Qed.

Lemma clock_reads_app a b :
  clock_reads (a ++ b) = clock_reads a + clock_reads b.
Proof.
  induction a as [|c a IH]; simpl; auto. rewrite IH. lia.
Qed.

(** An object has a value under each of its keys. *)
Lemma in_keys_get (o : Obj.jsobj) (k : jsstring) :
  In k (map fst o) -> exists v, Obj.get o k = Some v.
Proof.
  induction o as [|[k0 v0] o IH]; simpl; intros H; [contradiction|].
  destruct (eqs k0 k) eqn:E; eauto.
  destruct H as [->|H]; auto.
  rewrite (proj2 (ObjFacts.eqs_eq k k) eq_refl) in E. discriminate.
Qed.

(** A lower-case letter and its upper-case form give the same handler
    name. *)
Lemma reactEventName_case (c : N) (t : jsstring) :
  is_lower c = true ->
  reactEventName (c :: t) = reactEventName ((c - 32)%N :: t).
Proof.
  intros H. unfold reactEventName, toUpperCase1. cbn [tl]. rewrite H.
  assert (Hu : is_lower (c - 32) = false).
  { unfold is_lower in *. apply andb_true_iff in H as [_ H].
    apply N.leb_le in H. apply andb_false_iff. left.
    apply N.leb_gt. lia. }
  now rewrite Hu.
Qed.

End PipelineFacts.

(** ** The properties of the specification *)

Module Properties.
Import Obj ObjFacts RegexFacts Generate Tree.
Import EventFacts VariantFacts PipelineFacts.

(** C1: with the candidate files of a component directory readable, the
    variants found are the contributions of the entries of the listing, at
    most one each; a candidate file contributes a variant if and only if its
    text contains [@customElement] and [export class] and both extractions
    succeed; the class name extracted is exactly what the leftmost
    [export class Md\w+] names and the tag name exactly the string literal of
    the leftmost [@customElement(...)]; a text that declares the element
    [my-button] and then exports the class [MdButton] gives these two. *)
Theorem variant_iff_markers_and_extractions :
  forall fs componentPath componentName files,
    readdir fs componentPath = Some files ->
    (forall f, In f files -> is_candidate f = true ->
               readFile fs (componentPath ++ [f]) <> None) ->
    findAllComponentVariants fs componentPath componentName =
      flat_map (variants_of_file fs componentPath componentName) files /\
    (forall file,
       length (variants_of_file fs componentPath componentName file) <= 1) /\
    (forall file content,
       is_candidate file = true ->
       readFile fs (componentPath ++ [file]) = Some content ->
       (variants_of_file fs componentPath componentName file <> [] <->
        includes content (js "@customElement") = true /\
        includes content (js "export class") = true /\
        extractClassName content <> None /\
        extractTagName content <> None) /\
       (forall v,
          In v (variants_of_file fs componentPath componentName file) ->
          extractClassName content = Some (className v) /\
          extractTagName content = Some (tagName v))) /\
    (forall content cn,
       extractClassName content = Some cn <-> first_class_match content cn) /\
    (forall content tn,
       extractTagName content = Some tn <-> first_tag_match content tn) /\
    (forall post,
       stops is_word post ->
       let content :=
         js "@customElement('my-button')" ++ nl ++
         js "export class MdButton" ++ post in
       extractClassName content = Some (js "MdButton") /\
       extractTagName content = Some (js "my-button")).
Proof.
  intros fs componentPath componentName files Hdir Hread.
  split; [|split; [|split; [|split; [|split]]]].
  - unfold findAllComponentVariants. rewrite Hdir.
    now rewrite findAll_loop_flat.
  - intros file. unfold variants_of_file.
    destruct (is_candidate file); simpl; auto.
    destruct (readFile fs _); simpl; auto.
    destruct (variant_of _ _ _ _ _); simpl; auto.
  - intros file content Hc Hr. unfold variants_of_file. rewrite Hc, Hr.
    split.
    + split.
      * intros H.
        destruct (variant_of fs componentPath componentName file content)
          as [v|] eqn:Hv; [|congruence].
        apply variant_of_some in Hv as (H1 & H2 & H3 & H4).
        rewrite H3, H4. repeat split; auto; discriminate.
      * intros (H1 & H2 & H3 & H4).
        pose proof (@variant_of_succeeds fs componentPath componentName file
                      content H1 H2 H3 H4) as Hv.
        destruct (variant_of fs componentPath componentName file content);
          [discriminate|congruence].
    + intros v Hin.
      destruct (variant_of fs componentPath componentName file content)
        as [v'|] eqn:Hv; [|contradiction].
      destruct Hin as [<-|[]].
      apply variant_of_some in Hv as (_ & _ & H3 & H4). auto.
  - intros content cn. split.
    + apply extractClassName_first.
    + apply extractClassName_complete.
  - intros content tn. split.
    + apply extractTagName_first.
    + apply extractTagName_complete.
  - intros post Hpost content. subst content. split.
    + destruct post as [|c post]; [reflexivity|].
      unfold extractClassName, exec. cbn. simpl in Hpost. rewrite Hpost.
      reflexivity.
    + reflexivity.
Qed.

(** The sample [button] directory: two of its five entries give a variant. *)
Lemma variant_iff_markers_and_extractions_witness :
  map className
    (findAllComponentVariants sample_fs button_path (js "button")) =
  [js "MdFilledButton"; js "MdTextButton"].
Proof.
  assert (Hdir : readdir sample_fs button_path =
                 Some [js "contest.ts"; js "filled-button.ts";
                       js "harness.ts"; js "internal"; js "text-button.ts"])
    by (vm_compute; reflexivity).
  assert (Hread : forall f,
            In f [js "contest.ts"; js "filled-button.ts"; js "harness.ts";
                  js "internal"; js "text-button.ts"] ->
            is_candidate f = true ->
            readFile sample_fs (button_path ++ [f]) <> None).
  { intros f Hin Hc. simpl in Hin.
    repeat destruct Hin as [<-|Hin]; try contradiction;
      vm_compute in Hc |- *; congruence. }
  pose proof (variant_iff_markers_and_extractions sample_fs button_path
                (js "button") Hdir Hread) as H.
  destruct H as [H _]. rewrite H. vm_compute. reflexivity.
Defined.

(** C2: the variant found for a file that has a comment and an import before
    its decorated and documented class.  The text taken for the class
    documentation starts at the first comment of the file, so the
    documentation of the variant holds the earlier comment and the import,
    where the documentation block of the class alone reads
    [A filled button.] *)
Theorem class_documentation_spans_from_first_comment :
  map (fun v => (className v, tagName v, documentation v))
    (findAllComponentVariants (fs_of license_root) [TEMP_DIR; js "button"]
       (js "button")) =
  [ (js "MdFilledButton", js "md-filled-button",
     lines [ "Copyright 2021 Google LLC */";
             "import {customElement} from 'lit/decorators.js';";
             "/** A filled button." ]%string) ].
Proof. vm_compute. reflexivity. Qed.

(** C3: the variant found for a class with two adjacent documented
    properties declared as [@property({type: Boolean}) name].  The key taken
    is the first word after white space behind [@property], which is the
    type: both blocks land under the one key [Boolean], and the second
    replaces the first. *)
Theorem property_docs_keyed_by_first_word :
  map (fun v => (className v, propertyDocs v))
    (findAllComponentVariants (fs_of two_properties_root)
       [TEMP_DIR; js "button"] (js "button")) =
  [ (js "MdFilledButton",
     [(js "Boolean", js "Whether the button is soft-disabled.")]) ].
Proof. vm_compute. reflexivity. Qed.

(** C4: when the listing of [internal] has a first candidate file, the
    event extractor returns the mapping built from the [@fires] annotations
    of that file alone, whatever follows it in the listing: each key is [on]
    and an annotated event name with its first character upper-cased, its
    value is such an event name, and every annotated name, a non-empty run of
    word characters, has its key; the name [change] gives the key
    [onChange]. *)
Theorem extractEvents_first_candidate_only :
  forall fs componentPath pre file post content,
    readdir fs (componentPath ++ [js "internal"]) = Some (pre ++ file :: post) ->
    (forall g, In g pre -> is_internal_candidate g = false) ->
    is_internal_candidate file = true ->
    readFile fs ((componentPath ++ [js "internal"]) ++ [file]) = Some content ->
    let names := map (group 1) (matchAll fires_re content) in
    extractEvents fs componentPath =
      fires_loop (matchAll fires_re content) [] /\
    (forall k e, get (extractEvents fs componentPath) k = Some e ->
                 In e names /\ k = reactEventName e) /\
    (forall e, In e names ->
               e <> [] /\ forallb is_word e = true /\
               get (extractEvents fs componentPath) (reactEventName e) <> None) /\
    reactEventName (js "change") = js "onChange".
Proof.
  intros fs componentPath pre file post content Hdir Hpre Hfile Hread names.
  assert (E : extractEvents fs componentPath =
              fires_loop (matchAll fires_re content) []).
  { rewrite (extractEvents_first _ _ _ _ _ Hdir Hpre Hfile). now rewrite Hread. }
  rewrite E. split; [reflexivity|]. split; [|split; [|reflexivity]].
  - intros k e H.
    apply fires_loop_get in H as [[Hin Hk]|H]; [auto|discriminate].
  - intros e He. destruct (fires_names_words _ _ He) as [Hne Hw].
    repeat split; auto. now apply fires_loop_has.
Qed.

(** The sample [button] directory: [button.ts] is the first candidate of
    [internal], and [other.ts] after it is never scanned. *)
Lemma extractEvents_first_candidate_only_witness :
  extractEvents sample_fs button_path =
  [(js "onChange", js "change"); (js "onInput", js "input")].
Proof.
  assert (Hdir : readdir sample_fs (button_path ++ [js "internal"]) =
                 Some ([js "button-styles.ts"] ++ js "button.ts" ::
                       [js "other.ts"]))
    by (vm_compute; reflexivity).
  assert (Hpre : forall g, In g [js "button-styles.ts"] ->
                           is_internal_candidate g = false).
  { intros g [<-|[]]. vm_compute. reflexivity. }
  assert (Hfile : is_internal_candidate (js "button.ts") = true)
    by (vm_compute; reflexivity).
  assert (Hread : readFile sample_fs
                    ((button_path ++ [js "internal"]) ++ [js "button.ts"]) =
                  Some internal_button_ts)
    by (vm_compute; reflexivity).
  pose proof (extractEvents_first_candidate_only sample_fs button_path
                [js "button-styles.ts"] (js "button.ts") [js "other.ts"]
                Hdir Hpre Hfile Hread) as H.
  destruct H as [H _]. rewrite H. vm_compute. reflexivity.
Defined.

(** C5, as the claim states it, fails: the annotations of [two_fires_ts]
    name the two events [change] and [Change], which share the handler key
    [onChange], and the mapping keeps one entry for the two. *)
Lemma handler_key_collision :
  let names := map (group 1) (matchAll fires_re two_fires_ts) in
  names = [js "change"; js "Change"] /\
  fires_loop (matchAll fires_re two_fires_ts) [] =
    [(js "onChange", js "Change")] /\
  ~ (forall e1 e2, In e1 names -> In e2 names -> e1 <> e2 ->
                   reactEventName e1 <> reactEventName e2).
Proof.
  split; [vm_compute; reflexivity|].
  split; [vm_compute; reflexivity|].
  intros H.
  apply (H (js "change") (js "Change")).
  - vm_compute. left. reflexivity.
  - vm_compute. right. left. reflexivity.
  - discriminate.
  - vm_compute. reflexivity.
Qed.

(** C5, amended: the keys of the mapping built from the annotations of a
    file are pairwise distinct, each of them is the handler name of an
    annotated event name, and every annotated event name has its handler name
    among them; two distinct annotated names share one key if and only if
    they differ in the case of their first letter alone, and get distinct
    keys otherwise. *)
Theorem handler_keys_collide_on_first_letter_case :
  forall content,
    NoDup (map fst (fires_loop (matchAll fires_re content) [])) /\
    (forall k,
       In k (map fst (fires_loop (matchAll fires_re content) [])) ->
       exists e, In e (map (group 1) (matchAll fires_re content)) /\
                 k = reactEventName e) /\
    (forall e,
       In e (map (group 1) (matchAll fires_re content)) ->
       In (reactEventName e)
          (map fst (fires_loop (matchAll fires_re content) []))) /\
    (forall e1 e2,
       In e1 (map (group 1) (matchAll fires_re content)) ->
       In e2 (map (group 1) (matchAll fires_re content)) ->
       e1 <> e2 ->
       (reactEventName e1 = reactEventName e2 <->
        exists c1 c2 t,
          e1 = c1 :: t /\ e2 = c2 :: t /\
          ((is_lower c1 = true /\ c2 = (c1 - 32)%N) \/
           (is_lower c2 = true /\ c1 = (c2 - 32)%N)))).
Proof.
  intros content.
  split; [apply fires_loop_NoDup; constructor|].
  split; [|split].
  - intros k Hk. apply in_keys_get in Hk as [v Hv].
    apply fires_loop_get in Hv as [[Hin Hk]|Hv]; [eauto|discriminate].
  - intros e He.
    pose proof (fires_loop_has _ [] _ He) as Hg.
    destruct (get (fires_loop (matchAll fires_re content) [])
                (reactEventName e)) as [v|] eqn:E; [|congruence].
    clear Hg. revert E.
    generalize (fires_loop (matchAll fires_re content) []).
    intros o. induction o as [|[k0 v0] o IH]; simpl; [discriminate|].
    destruct (eqs k0 (reactEventName e)) eqn:Ek.
    + apply eqs_eq in Ek. auto.
    + auto.
  - intros e1 e2 H1 H2 Hne. split.
    + intros E.
      apply reactEventName_eq in E
        as [E|(c1 & c2 & t & -> & -> & Hc & Hu)]; [contradiction|].
      exists c1, c2, t. repeat split.
      now apply toUpperCase1_collision.
    + intros (c1 & c2 & t & -> & -> & [[Hl ->]|[Hl ->]]).
      * now apply reactEventName_case.
      * symmetry. now apply reactEventName_case.
Qed.

(** The names [change] and [Change] of [two_fires_ts] share the key
    [onChange]. *)
Lemma handler_keys_collide_on_first_letter_case_witness :
  reactEventName (js "change") = reactEventName (js "Change") /\
  map fst (fires_loop (matchAll fires_re two_fires_ts) []) = [js "onChange"].
Proof.
  assert (H1 : In (js "change")
                 (map (group 1) (matchAll fires_re two_fires_ts)))
    by (vm_compute; left; reflexivity).
  assert (H2 : In (js "Change")
                 (map (group 1) (matchAll fires_re two_fires_ts)))
    by (vm_compute; right; left; reflexivity).
  assert (Hne : js "change" <> js "Change") by discriminate.
  pose proof (handler_keys_collide_on_first_letter_case two_fires_ts) as H.
  destruct H as (_ & _ & _ & H).
  pose proof (H (js "change") (js "Change") H1 H2 Hne) as [_ Hback].
  split; [|vm_compute; reflexivity].
  apply Hback. exists 99%N, 67%N, (js "hange").
  split; [reflexivity|]. split; [reflexivity|].
  left. split; reflexivity.
Defined.

(** C6: a rejected listing of the component directory, or a rejected read
    of any of its candidate files, gives the empty variant list; a rejected
    listing of [internal] (absent or unreadable), or a rejected read of its
    first candidate file, gives the empty event mapping; and with the root
    listed, nothing below it keeps the run from writing its output. *)
Theorem read_failures_yield_empty_results :
  forall fs componentPath componentName,
    (readdir fs componentPath = None ->
     findAllComponentVariants fs componentPath componentName = []) /\
    (forall files file,
       readdir fs componentPath = Some files ->
       In file files -> is_candidate file = true ->
       readFile fs (componentPath ++ [file]) = None ->
       findAllComponentVariants fs componentPath componentName = []) /\
    (readdir fs (componentPath ++ [js "internal"]) = None ->
     extractEvents fs componentPath = []) /\
    (forall pre file post,
       readdir fs (componentPath ++ [js "internal"]) =
         Some (pre ++ file :: post) ->
       (forall g, In g pre -> is_internal_candidate g = false) ->
       is_internal_candidate file = true ->
       readFile fs ((componentPath ++ [js "internal"]) ++ [file]) = None ->
       extractEvents fs componentPath = []) /\
    (forall entries clock,
       readdirTypes fs [TEMP_DIR] = Some entries ->
       run fs clock =
         Some (createOutputStructure clock
                 (analyze_loop fs [TEMP_DIR] entries []))).
Proof.
  intros fs componentPath componentName. repeat split.
  - intros H. unfold findAllComponentVariants. now rewrite H.
  - intros files file Hdir Hin Hc Hr. unfold findAllComponentVariants.
    rewrite Hdir. now rewrite (findAll_loop_rejected _ _ _ _ _ Hin Hc Hr).
  - intros H. unfold extractEvents. now rewrite H.
  - intros pre file post Hdir Hpre Hfile Hr.
    rewrite (extractEvents_first _ _ _ _ _ Hdir Hpre Hfile). now rewrite Hr.
  - intros entries clock H. unfold run, analyzeComponentStructure.
    now rewrite H.
Qed.

(** The sample directory [broken] lists [b.ts], which is a directory: its
    read is rejected, the variant of [a.ts] is lost with it, and [broken],
    which has no [internal], has no events. *)
Lemma read_failures_yield_empty_results_witness :
  findAllComponentVariants sample_fs [TEMP_DIR; js "broken"] (js "broken") = []
  /\ extractEvents sample_fs [TEMP_DIR; js "broken"] = [].
Proof.
  pose proof (read_failures_yield_empty_results sample_fs
                [TEMP_DIR; js "broken"] (js "broken")) as H.
  destruct H as (_ & Hfile & Hint & _). split.
  - apply (Hfile [js "a.ts"; js "b.ts"] (js "b.ts")).
    + vm_compute. reflexivity.
    + right. left. reflexivity.
    + vm_compute. reflexivity.
    + vm_compute. reflexivity.
  - apply Hint. vm_compute. reflexivity.
Defined.

(** C7: a directory whose extraction gives no variant leaves the analysis
    as it would be without the directory, and every component of the analysis
    has at least one variant, those of the directory of its name; every
    wrapper a run writes is for a directory that gives at least one variant;
    the wrapper generator returns the empty string for a component without
    variants, and such a component adds no record to the exports: the
    manifest is the one written without it, stamped with the same reading of
    the clock. *)
Theorem zero_variants_never_materialized :
  forall fs entries,
    readdirTypes fs [TEMP_DIR] = Some entries ->
    (forall pre e post,
       entries = pre ++ e :: post ->
       findAllComponentVariants fs [TEMP_DIR; fst e] (fst e) = [] ->
       analyzeComponentStructure fs =
         Some (analyze_loop fs [TEMP_DIR] (pre ++ post) [])) /\
    (forall components c,
       analyzeComponentStructure fs = Some components -> In c components ->
       variants c <> [] /\
       variants c = findAllComponentVariants fs [TEMP_DIR; name c] (name c)) /\
    (forall clock out d,
       run fs clock = Some out ->
       In [OUTPUT_DIR; d; js "index.tsx"] (map fst out) ->
       findAllComponentVariants fs [TEMP_DIR; d] d <> []) /\
    (forall n timestamp, generateReactWrapper (Component n []) timestamp = []) /\
    (forall clock pre n post,
       exports_of (Component n []) = [] /\
       last (createOutputStructure clock (pre ++ Component n [] :: post))
            ([], []) =
       last (createOutputStructure clock (pre ++ post)) ([], []) /\
       last (createOutputStructure clock (pre ++ post)) ([], []) =
       ([OUTPUT_DIR; js "index.ts"],
        mainIndexContent (flat_map exports_of (pre ++ post))
          (clock (clock_reads (pre ++ post))))).
Proof.
  intros fs entries Hroot.
  assert (Hin : forall components c,
            analyzeComponentStructure fs = Some components ->
            In c components ->
            variants c <> [] /\
            variants c =
              findAllComponentVariants fs [TEMP_DIR; name c] (name c)).
  { intros components c H H0.
    unfold analyzeComponentStructure in H. rewrite Hroot in H.
    injection H as <-.
    apply analyze_loop_in in H0 as [[]|(_ & Hv & Hne)]. auto. }
  split; [|split; [exact Hin|split; [|split]]].
  - intros pre e post -> Hzero. unfold analyzeComponentStructure.
    rewrite Hroot. f_equal. now apply analyze_loop_zero.
  - intros clock out d Hrun Hd.
    apply run_paths in Hrun as (components & Ha & Hpaths).
    rewrite Hpaths in Hd. apply in_app_or in Hd as [Hd|[Hd|[]]];
      [|discriminate].
    apply in_map_iff in Hd as (c & Hc & Hcin).
    injection Hc as Hc. destruct (Hin _ _ Ha Hcin) as [Hne Hv].
    rewrite <- Hc, <- Hv. exact Hne.
  - reflexivity.
  - intros clock pre n post. split; [reflexivity|].
    rewrite !createOutputStructure_spec, !last_last.
    rewrite !flat_map_app, !clock_reads_app. split; reflexivity.
Qed.

(** The sample tree: [empty], [broken] and the rest give no component, only
    [button] does. *)
Lemma zero_variants_never_materialized_witness :
  option_map (map name) (analyzeComponentStructure sample_fs) =
  Some [js "button"].
Proof.
  assert (Hroot : readdirTypes sample_fs [TEMP_DIR] =
                  Some ([(js ".git", true); (js "README.md", false);
                         (js "broken", true); (js "button", true);
                         (js "docs", true)] ++
                        (js "empty", true) :: []))
    by (vm_compute; reflexivity).
  pose proof (zero_variants_never_materialized sample_fs Hroot) as H.
  destruct H as (H & _).
  rewrite (H _ (js "empty", true) [] eq_refl).
  - vm_compute. reflexivity.
  - vm_compute. reflexivity.
Defined.

(** C8: the import path of the variant of [table.tsv.ts] in the directory
    [table].  The first [.ts] of the name is the one replaced, so the path
    ends in [table.jsv.ts], where the name without its extension and [.js]
    give [table.tsv.js]. *)
Theorem importPath_replaces_first_ts :
  map importPath
    (findAllComponentVariants (fs_of table_root) [TEMP_DIR; js "table"]
       (js "table")) =
  [js "@material/web/table/table.jsv.ts"] /\
  endsWith (js "table.tsv.ts") (js ".ts") = true.
Proof. vm_compute. auto. Qed.

(** Where [.ts] occurs in a file name for the first time as its extension,
    the variant of the file is named by the name without the extension, and
    its import path is the root, the component directory, that name and
    [.js]. *)
Theorem importPath_of_trailing_extension :
  forall fs componentPath componentName stem content v,
    indexOf (stem ++ js ".ts") (js ".ts") = Some (length stem) ->
    variant_of fs componentPath componentName (stem ++ js ".ts") content =
      Some v ->
    fileName v = stem /\
    importPath v =
      js "@material/web/" ++ componentName ++ js "/" ++ stem ++ js ".js".
Proof.
  intros fs componentPath componentName stem content v Hidx Hv.
  assert (Hrep : forall repl,
            replace (stem ++ js ".ts") (js ".ts") repl = stem ++ repl).
  { intros repl. unfold replace. rewrite Hidx, firstn_length_app.
    rewrite skipn_all2 by (rewrite length_app; lia).
    now rewrite app_nil_r. }
  unfold variant_of in Hv.
  destruct (includes content (js "@customElement") &&
            includes content (js "export class")); [|discriminate].
  destruct (extractDocumentation content) as [d pd].
  destruct (extractClassName content) as [cn|]; [|discriminate].
  destruct (extractTagName content) as [tn|]; [|discriminate].
  destruct (truthy cn && truthy tn); [|discriminate].
  injection Hv as <-. simpl. rewrite !Hrep. now rewrite app_nil_r.
Qed.

(** The sample file [filled-button.ts]. *)
Lemma importPath_of_trailing_extension_witness :
  option_map importPath
    (variant_of sample_fs button_path (js "button")
       (js "filled-button" ++ js ".ts") filled_button_ts) =
  Some (js "@material/web/button/filled-button.js").
Proof.
  assert (Hidx : indexOf (js "filled-button" ++ js ".ts") (js ".ts") =
                 Some (length (js "filled-button")))
    by (vm_compute; reflexivity).
  destruct (variant_of sample_fs button_path (js "button")
              (js "filled-button" ++ js ".ts") filled_button_ts)
    as [v|] eqn:Hv.
  - pose proof (importPath_of_trailing_extension sample_fs button_path
                  (js "button") (js "filled-button") filled_button_ts
                  Hidx Hv) as H.
    destruct H as [_ H]. simpl. rewrite H. vm_compute. reflexivity.
  - vm_compute in Hv. discriminate.
Defined.

(** C9: what a run over a file system writes is fixed by the file system
    up to the readings of the clock: either every run stops at the listing of
    the root, or there are frames (a path, a text before and a text after the
    line of the time, none depending on the clock) such that every run writes
    exactly these files in this order, the [t]-th of them with the [t]-th
    reading of its clock on its [This file was auto-generated on] line.  So
    two runs whose clocks give times without line feed write files with the
    same paths and the same lines, but for that one line of each file. *)
Theorem run_deterministic_up_to_timestamp :
  forall fs,
    exists templates,
      (forall clock, run fs clock = option_map (fill clock 0) templates) /\
      (forall clock1 clock2 out1 out2,
         run fs clock1 = Some out1 -> run fs clock2 = Some out2 ->
         (forall t, ~ In 10%N (clock1 t)) ->
         (forall t, ~ In 10%N (clock2 t)) ->
         Forall2 (fun w1 w2 => fst w1 = fst w2 /\
                               differ_in_stamp_line (snd w1) (snd w2))
           out1 out2).
Proof.
  intros fs.
  destruct (analyzeComponentStructure fs) as [components|] eqn:Ha.
  - destruct (@run_template fs components Ha) as (templates & _ & Hrun).
    exists (Some templates). split; [exact Hrun|].
    intros clock1 clock2 out1 out2 H1 H2 Hc1 Hc2.
    rewrite Hrun in H1, H2. injection H1 as <-. injection H2 as <-.
    now apply fill_differ.
  - exists None. split.
    + intros clock. unfold run. now rewrite Ha.
    + intros clock1 clock2 out1 out2 H1. unfold run in H1.
      rewrite Ha in H1. discriminate.
Qed.

(** Two runs over the sample tree at different times. *)
Lemma run_deterministic_up_to_timestamp_witness :
  match run sample_fs (fun _ => js "2024-01-01T00:00:00.000Z"),
        run sample_fs (fun _ => js "2025-06-30T12:30:00.000Z") with
  | Some out1, Some out2 =>
      Forall2 (fun w1 w2 => fst w1 = fst w2 /\
                            differ_in_stamp_line (snd w1) (snd w2))
        out1 out2
  | _, _ => False
  end.
Proof.
  pose proof (run_deterministic_up_to_timestamp sample_fs) as H.
  destruct H as (templates & _ & H).
  destruct (run sample_fs (fun _ => js "2024-01-01T00:00:00.000Z"))
    as [out1|] eqn:E1; [|vm_compute in E1; discriminate].
  destruct (run sample_fs (fun _ => js "2025-06-30T12:30:00.000Z"))
    as [out2|] eqn:E2; [|vm_compute in E2; discriminate].
  apply (H _ _ _ _ E1 E2); intros t; vm_compute; intuition discriminate.
Defined.

(** C10: every variant found comes from an entry of the listing whose name
    ends in [.ts] and contains none of [internal], [test] and [demo]; and
    whatever reading a file gives whose name does not end in [.ts] or contains
    one of the three, the variants found are the same.  [contest.ts] and
    [demoted.ts] are such names. *)
Theorem candidate_selection_by_substring :
  forall fs componentPath componentName,
    (forall v,
       In v (findAllComponentVariants fs componentPath componentName) ->
       exists files file content,
         readdir fs componentPath = Some files /\ In file files /\
         endsWith file (js ".ts") = true /\
         includes file (js "internal") = false /\
         includes file (js "test") = false /\
         includes file (js "demo") = false /\
         readFile fs (componentPath ++ [file]) = Some content /\
         variant_of fs componentPath componentName file content = Some v) /\
    (forall file r,
       endsWith file (js ".ts") = false \/
       includes file (js "internal") = true \/
       includes file (js "test") = true \/
       includes file (js "demo") = true ->
       findAllComponentVariants (with_file fs (componentPath ++ [file]) r)
         componentPath componentName =
       findAllComponentVariants fs componentPath componentName) /\
    includes (js "contest.ts") (js "test") = true /\
    includes (js "demoted.ts") (js "demo") = true.
Proof.
  intros fs componentPath componentName. split; [|split; [|split]].
  - intros v Hv. unfold findAllComponentVariants in Hv.
    destruct (readdir fs componentPath) as [files|] eqn:Hdir; [|destruct Hv].
    simpl in Hv.
    destruct (findAll_loop fs componentPath componentName files [])
      as [vs|] eqn:Hloop; [|destruct Hv].
    destruct (findAll_loop_origin _ _ _ _ _ _ Hloop Hv)
      as [[]|(file & content & Hin & Hc & Hr & Hvo)].
    exists files, file, content. unfold is_candidate in Hc.
    apply andb_true_iff in Hc as [Hc H4].
    apply andb_true_iff in Hc as [Hc H3].
    apply andb_true_iff in Hc as [H1 H2].
    apply negb_true_iff in H2, H3, H4. repeat split; auto.
  - intros file r Hfile.
    assert (Hc : is_candidate file = false).
    { unfold is_candidate.
      destruct Hfile as [H|[H|[H|H]]]; rewrite H; simpl;
        rewrite ?andb_false_r; reflexivity. }
    unfold findAllComponentVariants, readdir. simpl.
    destruct (readdirTypes fs componentPath); simpl; auto.
    now rewrite findAll_loop_with_file.
  - vm_compute. reflexivity.
  - vm_compute. reflexivity.
Qed.

(** The sample [button] directory: [contest.ts] holds the text of
    [filled-button.ts], and neither that text nor any other in its place
    gives a variant. *)
Lemma candidate_selection_by_substring_witness :
  findAllComponentVariants
    (with_file sample_fs (button_path ++ [js "contest.ts"])
       (Some text_button_ts))
    button_path (js "button") =
  findAllComponentVariants sample_fs button_path (js "button").
Proof.
  pose proof (candidate_selection_by_substring sample_fs button_path
                (js "button")) as H.
  destruct H as (_ & H & _).
  apply H. right. right. left. vm_compute. reflexivity.
Defined.

End Properties.

(** ** Strings: pieces, lines and trimming *)

Module StringFacts.
Import RegexFacts.

Lemma includes_unfold (s p : jsstring) :
  includes s p =
  startsWith s p || match s with [] => false | _ :: s' => includes s' p end.
Proof. destruct s; reflexivity. Qed.

Lemma includes_intro (pre p post : jsstring) :
  includes (pre ++ p ++ post) p = true.
Proof.
  induction pre as [|c pre IH]; simpl.
  - rewrite includes_unfold, startsWith_app. reflexivity.
  - rewrite IH. apply orb_true_r.
Qed.

Lemma includes_inv (s p : jsstring) :
  includes s p = true -> exists pre post, s = pre ++ p ++ post.
Proof.
  induction s as [|c s IH]; rewrite includes_unfold; intros H;
    apply orb_true_iff in H as [H|H].
  - apply startsWith_inv in H as [post ->]. now exists [], post.
  - discriminate.
  - apply startsWith_inv in H as [post ->]. now exists [], post.
  - destruct (IH H) as (pre & post & ->). now exists (c :: pre), post.
Qed.

Lemma includes_refl (p : jsstring) : includes p p = true.
Proof.
  pose proof (includes_intro [] p []) as H. simpl in H.
  now rewrite app_nil_r in H.
Qed.

(** A piece of a part is a piece of the whole. *)
Lemma includes_mid (a s b p : jsstring) :
  includes s p = true -> includes (a ++ s ++ b) p = true.
Proof.
  intros H. apply includes_inv in H as (pre & post & ->).
  replace (a ++ (pre ++ p ++ post) ++ b) with ((a ++ pre) ++ p ++ (post ++ b))
    by now rewrite <- !app_assoc.
  apply includes_intro.
Qed.

Lemma includes_join_In (sep : jsstring) (l : list jsstring) (x p : jsstring) :
  In x l -> includes x p = true -> includes (join sep l) p = true.
Proof.
  induction l as [|y l IH]; intros Hin Hp; [contradiction|].
  destruct l as [|z l].
  - destruct Hin as [->|[]]. exact Hp.
  - change (join sep (y :: z :: l)) with (y ++ sep ++ join sep (z :: l)).
    destruct Hin as [->|Hin].
    + apply (includes_mid [] _ _ _ Hp).
    + pose proof (includes_mid (y ++ sep) (join sep (z :: l)) [] p
                    (IH Hin Hp)) as H.
      now rewrite app_nil_r, <- app_assoc in H.
Qed.

Lemma trimStart_split (s : jsstring) :
  exists pre, s = pre ++ trimStart s /\ forallb is_space pre = true.
Proof.
  induction s as [|c s (pre & IH & Hpre)]; simpl.
  - now exists [].
  - destruct (is_space c) eqn:Hc.
    + exists (c :: pre). simpl. rewrite Hc, Hpre. now rewrite <- IH.
    + now exists [].
Qed.

Lemma trimStart_stops (s : jsstring) : Generate.stops is_space (trimStart s).
Proof.
  induction s as [|c s IH]; simpl; auto.
  destruct (is_space c) eqn:Hc; simpl; auto.
Qed.

(** [trim] leaves no white space at either end. *)
Lemma trim_trimmed (s : jsstring) : Generate.trimmed (trim s).
Proof.
  unfold Generate.trimmed, trim. rewrite rev_involutive.
  split; [|apply trimStart_stops].
  pose proof (trimStart_stops s) as Hs.
  destruct (trimStart_split (rev (trimStart s))) as (pre & Hsplit & _).
  apply (f_equal (@rev _)) in Hsplit.
  rewrite rev_involutive, rev_app_distr in Hsplit.
  destruct (rev (trimStart (rev (trimStart s)))) as [|c t]; simpl; auto.
  rewrite Hsplit in Hs. exact Hs.
Qed.

Lemma trimStart_Forall (P : N -> Prop) (s : jsstring) :
  Forall P s -> Forall P (trimStart s).
Proof.
  induction 1 as [|c s Hc Hs IH]; simpl; auto.
  destruct (is_space c); auto.
Qed.

Lemma trim_Forall (P : N -> Prop) (s : jsstring) :
  Forall P s -> Forall P (trim s).
Proof.
  intros H. unfold trim.
  apply Forall_rev, trimStart_Forall, Forall_rev, trimStart_Forall, H.
Qed.

(** No piece of a split holds the separator. *)
Lemma split_no_sep (sep : N) (s : jsstring) :
  Forall (fun l => ~ In sep l) (split sep s).
Proof.
  induction s as [|c s IH]; simpl.
  - constructor; auto.
  - destruct (c =? sep)%N eqn:Hc.
    + constructor; auto.
    + apply N.eqb_neq in Hc.
      destruct (split sep s) as [|l ls].
      * constructor; auto. intros [H|[]]. congruence.
      * inversion IH; subst. constructor; auto.
        intros [H|H]; [congruence|auto].
Qed.

Lemma split_none (sep : N) (x : jsstring) :
  ~ In sep x -> split sep x = [x].
Proof.
  induction x as [|c x IH]; simpl; intros H; auto.
  destruct (c =? sep)%N eqn:Hc.
  - apply N.eqb_eq in Hc. exfalso. auto.
  - rewrite IH; auto.
Qed.

Lemma split_app (sep : N) (x rest : jsstring) :
  ~ In sep x -> split sep (x ++ sep :: rest) = x :: split sep rest.
Proof.
  induction x as [|c x IH]; simpl; intros H.
  - now rewrite N.eqb_refl.
  - destruct (c =? sep)%N eqn:Hc.
    + apply N.eqb_eq in Hc. exfalso. auto.
    + rewrite IH; auto.
Qed.

(** Joining lines and splitting the text again gives the lines back. *)
Lemma split_join (sep : N) (ls : list jsstring) :
  ls <> [] -> Forall (fun l => ~ In sep l) ls ->
  split sep (join [sep] ls) = ls.
Proof.
  induction ls as [|x ls IH]; intros Hne H; [congruence|].
  inversion H as [|? ? Hx Hls]; subst.
  destruct ls as [|y ls].
  - simpl. now apply split_none.
  - change (join [sep] (x :: y :: ls))
      with (x ++ sep :: join [sep] (y :: ls)).
    rewrite split_app by assumption. f_equal. apply IH; auto. discriminate.
Qed.

Lemma join_Forall (P : N -> Prop) (sep : jsstring) (ls : list jsstring) :
  Forall P sep -> Forall (Forall P) ls -> Forall P (join sep ls).
Proof.
  intros Hsep. induction 1 as [|x ls Hx Hls IH]; [constructor|].
  destruct ls as [|y ls]; [exact Hx|].
  change (join sep (x :: y :: ls)) with (x ++ sep ++ join sep (y :: ls)).
  repeat (apply Forall_app; split); auto.
Qed.

End StringFacts.

(** ** Documentation: cleaned lines and property entries *)

Module DocFacts.
Import Obj ObjFacts RegexFacts Generate StringFacts VariantFacts.

Lemma not_In_Forall (c : N) (l : jsstring) :
  ~ In c l <-> Forall (fun x => x <> c) l.
Proof.
  rewrite Forall_forall. split.
  - intros H x Hx ->. auto.
  - intros H Hin. exact (H c Hin eq_refl).
Qed.

(** Replacing the first match by nothing only removes characters. *)
Lemma replace_re_Forall (P : N -> Prop) r (s : jsstring) :
  Forall P s -> Forall P (replace_re r (fun _ => []) s).
Proof.
  intros H. unfold replace_re, exec.
  destruct (search_from r 0 s) as [x|] eqn:Hx; auto.
  apply search_sound in Hx as (pre & w & Hs & Hst & _).
  simpl in Hst. rewrite Hst. rewrite Hs at 1. rewrite firstn_length_app.
  rewrite Hs in H. apply Forall_app in H as [Hpre H].
  apply Forall_app in H as [_ Hrest]. apply Forall_app. auto.
Qed.

(** What every cleaned line is like. *)
Lemma clean_lines_spec (docContent line : jsstring) :
  In line (clean_lines docContent) ->
  line <> [] /\ startsWith line (js "@") = false /\ trimmed line /\
  ~ In 10%N line.
Proof.
  unfold clean_lines. intros H. apply filter_In in H as [H Hf].
  apply andb_true_iff in Hf as [Ht Ha]. apply negb_true_iff in Ha.
  apply in_map_iff in H as (l0 & <- & Hl0).
  repeat split.
  - intros E. rewrite E in Ht. discriminate.
  - exact Ha.
  - apply trim_trimmed.
  - apply trim_trimmed.
  - apply not_In_Forall, trim_Forall, replace_re_Forall, not_In_Forall.
    pose proof (split_no_sep 10 docContent) as Hs.
    rewrite Forall_forall in Hs. auto.
Qed.

Lemma join_head (sep x : jsstring) (ls : list jsstring) (p : N -> bool) :
  x <> [] -> stops p x -> stops p (join sep (x :: ls)).
Proof.
  intros Hx Hp. destruct x as [|c x]; [congruence|].
  destruct ls; simpl; auto.
Qed.

(** What every non-empty one-line documentation of a property is like. *)
Lemma cleanDoc_spec (docContent : jsstring) :
  truthy (join (js " ") (clean_lines docContent)) = true ->
  join (js " ") (clean_lines docContent) <> [] /\
  stops is_space (join (js " ") (clean_lines docContent)) /\
  ~ In 10%N (join (js " ") (clean_lines docContent)).
Proof.
  intros Ht. split; [intros E; rewrite E in Ht; discriminate|].
  split.
  - destruct (clean_lines docContent) as [|x ls] eqn:E; [exact I|].
    assert (Hx : In x (clean_lines docContent)) by (rewrite E; now left).
    apply clean_lines_spec in Hx as (Hne & _ & [Hs _] & _).
    now apply join_head.
  - apply not_In_Forall, join_Forall.
    + repeat constructor; discriminate.
    + apply Forall_forall. intros l Hl. apply not_In_Forall.
      now apply clean_lines_spec in Hl.
Qed.

(** The identifier the property regex captures is a non-empty run of word
    characters. *)
Lemma propertyDoc_names content x :
  In x (matchAll propertyDoc_re content) ->
  group 2 x <> [] /\ forallb is_word (group 2 x) = true.
Proof.
  intros Hx. apply matchAll_from_sem in Hx as (n & w & Hsem).
  unfold propertyDoc_re in Hsem. inv_sem.
  unfold group.
  match goal with H : _ = m_caps x |- _ => rewrite <- H end.
  simpl. split; [discriminate|].
  repeat match goal with H : is_word _ = true |- _ => rewrite H; clear H end.
  assumption.
Qed.

Lemma set_own_In (o : jsobj) (k v k' v' : jsstring) :
  In (k', v') (set_own o k v) -> (k' = k /\ v' = v) \/ In (k', v') o.
Proof.
  induction o as [|[k0 v0] o IH]; simpl.
  - intros [H|[]]. injection H as <- <-. auto.
  - destruct (eqs k0 k) eqn:E; simpl.
    + apply eqs_eq in E; subst. intros [H|H]; auto.
      injection H as <- <-. auto.
    + intros [H|H]; auto. destruct (IH H); auto.
Qed.

Lemma set_In (o : jsobj) (k v k' v' : jsstring) :
  In (k', v') (set o k v) ->
  (k' = k /\ v' = v /\ k <> js "__proto__") \/ In (k', v') o.
Proof.
  unfold set. destruct (eqs k (js "__proto__")) eqn:E; auto.
  apply eqs_neq in E. intros H. apply set_own_In in H as [[-> ->]|H]; auto.
Qed.

Lemma propertyDocs_loop_NoDup ms : forall o,
  NoDup (map fst o) -> NoDup (map fst (propertyDocs_loop ms o)).
Proof.
  induction ms as [|x ms IH]; simpl; intros o H; auto.
  apply IH. destruct (truthy _); auto using set_NoDup.
Qed.

(** Every entry of the result was in the object before the loop or comes
    from a match with a non-empty one-line documentation. *)
Lemma propertyDocs_loop_In ms : forall o k d,
  In (k, d) (propertyDocs_loop ms o) ->
  In (k, d) o \/
  exists x, In x ms /\ k = group 2 x /\ k <> js "__proto__" /\
            d = join (js " ") (clean_lines (group 1 x)) /\ truthy d = true.
Proof.
  induction ms as [|x ms IH]; simpl; intros o k d H; auto.
  apply IH in H as [H|(y & Hy & H)]; [|right; exists y; auto].
  destruct (truthy (join (js " ") (clean_lines (group 1 x)))) eqn:Ht; auto.
  apply set_In in H as [(-> & -> & Hp)|H]; auto.
  right. exists x. auto.
Qed.

Lemma find_app {T} (f : T -> bool) (l l' : list T) :
  find f (l ++ l') =
  match find f l with Some y => Some y | None => find f l' end.
Proof.
  induction l as [|a l IH]; simpl; auto. destruct (f a); auto.
Qed.

(** Under a key other than [__proto__], the loop leaves the documentation of
    the last match that has the key and a non-empty documentation. *)
Lemma propertyDocs_loop_last ms : forall o k,
  k <> js "__proto__" ->
  get (propertyDocs_loop ms o) k =
  match find (fun x => truthy (join (js " ") (clean_lines (group 1 x))) &&
                       eqs (group 2 x) k) (rev ms) with
  | Some x => Some (join (js " ") (clean_lines (group 1 x)))
  | None => get o k
  end.
Proof.
  induction ms as [|x ms IH]; simpl; intros o k Hk; auto.
  rewrite IH, find_app by assumption.
  destruct (find _ (rev ms)); auto. simpl.
  destruct (truthy (join (js " ") (clean_lines (group 1 x)))) eqn:Ht;
    simpl; auto.
  destruct (eqs (group 2 x) k) eqn:E.
  - apply eqs_eq in E. subst k. rewrite get_set, eqs_refl by assumption.
    reflexivity.
  - unfold set. destruct (eqs (group 2 x) (js "__proto__")); auto.
    rewrite get_set_own, E. reflexivity.
Qed.

(** Under every key, the events hold the name of the last annotation that
    gives the key. *)
Lemma fires_loop_last ms : forall o k,
  get (fires_loop ms o) k =
  match find (fun x => eqs (reactEventName (group 1 x)) k) (rev ms) with
  | Some x => Some (group 1 x)
  | None => get o k
  end.
Proof.
  induction ms as [|x ms IH]; intros o k; [reflexivity|].
  cbn [fires_loop rev]. rewrite IH, find_app.
  destruct (find _ (rev ms)); auto. cbn [find].
  rewrite get_set by apply EventFacts.reactEventName_not_proto.
  now destruct (eqs (reactEventName (group 1 x)) k).
Qed.

End DocFacts.

(** ** Variants, the walker and the rendered texts *)

Module RenderFacts.
Import Obj ObjFacts RegexFacts Generate StringFacts VariantFacts.
Import EventFacts PipelineFacts DocFacts.

(** The fields [variant_of] fills in. *)
Lemma variant_of_fields fs componentPath componentName file content v :
  variant_of fs componentPath componentName file content = Some v ->
  fileName v = replace file (js ".ts") [] /\
  importPath v =
    js "@material/web/" ++ componentName ++ js "/" ++
    replace file (js ".ts") (js ".js") /\
  events v = extractEvents fs componentPath /\
  (documentation v, propertyDocs v) = extractDocumentation content.
Proof.
  unfold variant_of.
  destruct (includes content (js "@customElement") &&
            includes content (js "export class")); [|discriminate].
  destruct (extractDocumentation content) as [d pd].
  destruct (extractClassName content) as [cn|]; [|discriminate].
  destruct (extractTagName content) as [tn|]; [|discriminate].
  destruct (truthy cn && truthy tn); [|discriminate].
  intros H; injection H as <-. simpl. auto.
Qed.

(** Where a variant of the result comes from. *)
Lemma findAll_origin fs componentPath componentName v :
  In v (findAllComponentVariants fs componentPath componentName) ->
  exists files file content,
    readdir fs componentPath = Some files /\ In file files /\
    is_candidate file = true /\
    readFile fs (componentPath ++ [file]) = Some content /\
    variant_of fs componentPath componentName file content = Some v.
Proof.
  intros Hv. unfold findAllComponentVariants in Hv.
  destruct (readdir fs componentPath) as [files|] eqn:Hdir; [|destruct Hv].
  simpl in Hv.
  destruct (findAll_loop fs componentPath componentName files [])
    as [vs|] eqn:Hloop; [|destruct Hv].
  destruct (findAll_loop_origin _ _ _ _ _ _ Hloop Hv)
    as [[]|(file & content & Hin & Hc & Hr & Hvo)].
  exists files, file, content. auto.
Qed.

Lemma set_keys_in (o : jsobj) (k v k' : jsstring) :
  In k' (map fst (set o k v)) -> k' = k \/ In k' (map fst o).
Proof.
  unfold set. destruct (eqs k (js "__proto__")); auto.
  apply set_own_keys_in.
Qed.

Lemma fires_loop_keys ms : forall o k,
  In k (map fst (fires_loop ms o)) ->
  In k (map fst o) \/ exists e, k = reactEventName e.
Proof.
  induction ms as [|x ms IH]; simpl; intros o k H; auto.
  apply IH in H as [H|H]; auto.
  apply set_keys_in in H as [->|H]; eauto.
Qed.

Lemma index_value_reactEventName e : index_value (reactEventName e) = None.
Proof. reflexivity. Qed.

(** An object without array-index keys lists its entries as they were
    inserted. *)
Lemma entries_no_index (o : jsobj) :
  (forall k, In k (map fst o) -> index_value k = None) -> entries o = o.
Proof.
  intros H. unfold entries.
  assert (Hi : index_entries o = [] /\
               filter (fun e => match index_value (fst e) with
                                | Some _ => false | None => true end) o = o).
  { induction o as [|e o IH]; simpl; auto.
    rewrite (H (fst e)) by (simpl; auto).
    destruct IH as [-> ->]; auto. intros k Hk. apply H. simpl. auto. }
  destruct Hi as [-> ->]. reflexivity.
Qed.

(** What [extractEvents] can return. *)
Lemma extractEvents_shape fs componentPath :
  extractEvents fs componentPath = [] \/
  exists content,
    extractEvents fs componentPath = fires_loop (matchAll fires_re content) [].
Proof.
  unfold extractEvents.
  destruct (readdir fs (componentPath ++ [js "internal"])) as [files|];
    simpl; auto.
  induction files as [|f files IH]; simpl; auto.
  destruct (is_internal_candidate f); auto.
  destruct (readFile fs _) as [content|]; simpl; eauto.
Qed.

Lemma extractEvents_entries fs componentPath :
  entries (extractEvents fs componentPath) = extractEvents fs componentPath.
Proof.
  apply entries_no_index. intros k Hk.
  destruct (extractEvents_shape fs componentPath) as [E|[content E]];
    rewrite E in Hk; [destruct Hk|].
  apply fires_loop_keys in Hk as [[]|[e ->]].
  apply index_value_reactEventName.
Qed.

Lemma analyze_loop_names fs componentsPath entries0 : forall acc,
  map name (analyze_loop fs componentsPath entries0 acc) =
  map name acc ++
  map fst
    (filter (fun e =>
               is_component_entry e &&
               (0 <? length (findAllComponentVariants fs
                               (componentsPath ++ [fst e]) (fst e))))
       entries0).
Proof.
  induction entries0 as [|e es IH]; simpl; intros acc.
  - now rewrite app_nil_r.
  - destruct (is_component_entry e); simpl; auto.
    rewrite IH.
    destruct (0 <? length _); simpl; auto.
    now rewrite map_app, <- app_assoc.
Qed.

Lemma search_upper_cons n c s :
  search_from upper_re n (c :: s) =
  if is_upper c then Some (RMatch n (S n) s [(1, [c])])
  else search_from upper_re (S n) s.
Proof.
  cbn [search_from]. unfold match_at, upper_re. cbn [m rest pos caps].
  destruct (is_upper c); [|reflexivity].
  replace (S n - n) with 1 by lia. reflexivity.
Qed.

(** The global replacement of [generateReactWrapper] puts a space before
    every upper-case letter and changes nothing else. *)
Lemma rebuild_upper s : forall fuel n,
  length s < fuel ->
  rebuild (fun x => js " " ++ group 1 x) n s
    (matchAll_from fuel upper_re n s) =
  space_capitals s.
Proof.
  induction s as [|c s IH]; intros [|fuel] n Hf; simpl in Hf; try lia.
  - reflexivity.
  - cbn [matchAll_from]. rewrite search_upper_cons.
    change (space_capitals (c :: s))
      with ((if is_upper c then [32%N; c] else [c]) ++ space_capitals s).
    destruct (is_upper c).
    + cbn [m_end m_start m_rest].
      replace (S n =? n) with false by (symmetry; apply Nat.eqb_neq; lia).
      cbn [rebuild m_start m_end].
      replace (n - n) with 0 by lia. replace (S n - n) with 1 by lia.
      cbn [firstn skipn app]. rewrite IH by lia. reflexivity.
    + rewrite <- (IH (S fuel) (S n)) by lia. cbn [matchAll_from].
      destruct (search_from upper_re (S n) s) as [x|] eqn:Hx;
        [|reflexivity].
      apply search_sound in Hx as (pre & w & _ & Hst & Hen & _).
      cbn [rebuild].
      replace (m_start x - n) with (S (m_start x - S n)) by lia.
      replace (m_end x - n) with (S (m_end x - S n)) by lia.
      reflexivity.
Qed.

Lemma replaceAll_upper s :
  replaceAll_re upper_re (fun x => js " " ++ group 1 x) s = space_capitals s.
Proof. unfold replaceAll_re, matchAll. apply rebuild_upper. lia. Qed.

(** Every section of a wrapper is a piece of its text. *)
Lemma wrapper_includes c timestamp section p :
  variants c <> [] ->
  In section
    [ join nl (map wrapper_import (variants c));
      join nl (map wrapper_type (variants c));
      join nl (map wrapper_interface (variants c));
      join nl (map wrapper_definition (variants c)) ] ->
  includes section p = true ->
  includes (generateReactWrapper c timestamp) p = true.
Proof.
  intros Hv Hin Hp. unfold generateReactWrapper.
  destruct (variants c) as [|v vs] eqn:E; [congruence|].
  cbv beta iota zeta delta [length Nat.eqb].
  apply includes_join_In with (x := section); auto.
  simpl in Hin |- *. intuition.
Qed.

Lemma includes_join_map {T} (f : T -> jsstring) (l : list T) (x : T) :
  In x l -> includes (join nl (map f l)) (f x) = true.
Proof.
  intros H. apply includes_join_In with (x := f x).
  - now apply in_map.
  - apply includes_refl.
Qed.

(** A text without [/**] has no documentation of either kind. *)
Lemma no_comment_no_match content :
  includes content (js "/**") = false ->
  exec classDoc_re content = None /\ matchAll propertyDoc_re content = [].
Proof.
  intros H.
  assert (Hnone : forall r rest0,
            r = Lit (js "/**") >> rest0 -> search_from r 0 content = None).
  { intros r rest0 ->.
    destruct (search_from _ 0 content) as [x|] eqn:Hx; auto.
    apply search_sound in Hx as (pre & w & Hs & _ & _ & Hsem & _).
    rewrite Hs in H. clear Hs.
    inversion Hsem; subst.
    match goal with Hl : sem (Lit _) _ _ _ _ |- _ => inversion Hl; subst end.
    rewrite <- app_assoc, includes_intro in H. discriminate. }
  split.
  - unfold exec. eapply Hnone. reflexivity.
  - unfold matchAll. cbn [matchAll_from].
    erewrite Hnone; reflexivity.
Qed.

End RenderFacts.

(** ** Further properties of the script *)

Module FurtherProperties.
Import Obj ObjFacts RegexFacts Generate Tree StringFacts.
Import EventFacts VariantFacts PipelineFacts DocFacts RenderFacts.

(** The walker: with the root listed, the components of the analysis are,
    in listing order, the entries that are directories, do not start with a
    dot, are none of the five excluded names and give at least one variant;
    a rejected listing of the root is not caught and ends the run. *)
Theorem analysis_keeps_component_directories :
  forall fs,
    (readdirTypes fs [TEMP_DIR] = None ->
     analyzeComponentStructure fs = None /\
     forall clock, run fs clock = None) /\
    (forall entries,
       readdirTypes fs [TEMP_DIR] = Some entries ->
       exists components,
         analyzeComponentStructure fs = Some components /\
         map name components =
           map fst
             (filter (fun e =>
                        is_component_entry e &&
                        (0 <? length (findAllComponentVariants fs
                                        [TEMP_DIR; fst e] (fst e))))
                entries) /\
         forall c, In c components ->
           In (name c, true) entries /\
           startsWith (name c) (js ".") = false /\
           ~ In (name c) excluded_names).
Proof.
  intros fs. split.
  - intros H. unfold run, analyzeComponentStructure. rewrite H. auto.
  - intros entries H. unfold analyzeComponentStructure. rewrite H.
    eexists. split; [reflexivity|]. split.
    + now rewrite analyze_loop_names.
    + intros c Hc.
      apply analyze_loop_in in Hc as [[]|((e & Hin & He & Hn) & _)].
      unfold is_component_entry in He.
      apply andb_true_iff in He as [He Hex].
      apply andb_true_iff in He as [Hd Hdot].
      apply negb_true_iff in Hdot, Hex. rewrite Hn.
      destruct e as [en ed]; cbn [fst snd] in *. subst ed.
      repeat split; auto.
      intros Hmem.
      assert (Hex' : existsb (eqs en) excluded_names = true).
      { apply existsb_exists. exists en. split; [assumption|apply eqs_refl]. }
      congruence.
Qed.

(** The sample tree: of its six entries, [button] alone is kept. *)
Lemma analysis_keeps_component_directories_witness :
  exists components,
    analyzeComponentStructure sample_fs = Some components /\
    map name components = [js "button"].
Proof.
  assert (Hroot : readdirTypes sample_fs [TEMP_DIR] =
                  Some [(js ".git", true); (js "README.md", false);
                        (js "broken", true); (js "button", true);
                        (js "docs", true); (js "empty", true)])
    by (vm_compute; reflexivity).
  pose proof (analysis_keeps_component_directories sample_fs) as H.
  destruct H as [_ H]. destruct (H _ Hroot) as (components & Ha & Hn & _).
  exists components. split; [exact Ha|]. rewrite Hn. vm_compute. reflexivity.
Defined.

(** A run that gets past the listing of the root writes one wrapper per
    component of the analysis, in order, at [src/<name>/index.tsx], and the
    manifest last, at [src/index.ts]; no text it writes is empty. *)
Theorem run_writes_wrappers_then_manifest :
  forall fs clock out,
    run fs clock = Some out ->
    exists components,
      analyzeComponentStructure fs = Some components /\
      map fst out =
        map (fun c => [OUTPUT_DIR; name c; js "index.tsx"]) components ++
        [[OUTPUT_DIR; js "index.ts"]] /\
      Forall (fun w => snd w <> []) out.
Proof.
  intros fs clock out H. unfold run in H.
  destruct (analyzeComponentStructure fs) as [components|] eqn:Ha;
    [|discriminate].
  injection H as <-. exists components. split; [reflexivity|].
  rewrite createOutputStructure_spec.
  assert (Hne : forall c, In c components -> variants c <> []).
  { intros c Hc. unfold analyzeComponentStructure in Ha.
    destruct (readdirTypes fs [TEMP_DIR]); [|discriminate].
    injection Ha as <-.
    apply analyze_loop_in in Hc as [[]|(_ & _ & Hv)]. exact Hv. }
  assert (Hstamp : forall t, same_but_timestamp t t -> t <> []).
  { intros t (pre & ts1 & ts2 & post & -> & _).
    destruct pre; discriminate. }
  clear Ha. split.
  - rewrite map_app. f_equal.
    generalize 0. induction components as [|c cs IH]; simpl; intros t; auto.
    f_equal. apply IH. intros c' Hc'. apply Hne. now right.
  - apply Forall_app. split.
    + generalize 0. induction components as [|c cs IH]; simpl; intros t;
        constructor.
      * simpl. apply Hstamp, wrapper_same_but_timestamp, Hne. now left.
      * apply IH. intros c' Hc'. apply Hne. now right.
    + constructor; [|constructor]. simpl.
      apply Hstamp, mainIndex_same_but_timestamp.
Qed.

(** The sample tree: two files are written. *)
Lemma run_writes_wrappers_then_manifest_witness :
  option_map (map fst) (run sample_fs (fun _ => js "2024-01-01T00:00:00.000Z"))
  = Some [ [js "src"; js "button"; js "index.tsx"]; [js "src"; js "index.ts"] ].
Proof.
  destruct (run sample_fs (fun _ => js "2024-01-01T00:00:00.000Z"))
    as [out|] eqn:Hrun.
  - pose proof (run_writes_wrappers_then_manifest sample_fs _ Hrun) as H.
    destruct H as (components & Ha & Hpaths & _).
    simpl. rewrite Hpaths. vm_compute in Ha. injection Ha as <-.
    vm_compute. reflexivity.
  - vm_compute in Hrun. discriminate.
Defined.

(** Every variant found in a component directory comes from a candidate file
    of the directory: its file name and import path derive from the name of
    that file, its documentation is what [extractDocumentation] gives for the
    text, its class name is [Md] and at least one word character, its tag name
    is non-empty and holds no quote character; and all the variants of the
    directory carry the one mapping [extractEvents] gives for it. *)
Theorem variants_share_events_and_shape :
  forall fs componentPath componentName v,
    In v (findAllComponentVariants fs componentPath componentName) ->
    events v = extractEvents fs componentPath /\
    (exists file content,
       is_candidate file = true /\
       readFile fs (componentPath ++ [file]) = Some content /\
       fileName v = replace file (js ".ts") [] /\
       importPath v =
         js "@material/web/" ++ componentName ++ js "/" ++
         replace file (js ".ts") (js ".js") /\
       (documentation v, propertyDocs v) = extractDocumentation content) /\
    (exists u, className v = js "Md" ++ u /\ u <> [] /\
               forallb is_word u = true) /\
    tagName v <> [] /\ forallb c_notquote (tagName v) = true.
Proof.
  intros fs componentPath componentName v Hv.
  apply findAll_origin in Hv
    as (files & file & content & _ & _ & Hc & Hr & Hvo).
  pose proof (variant_of_fields _ _ _ _ _ Hvo) as (Hf & Hi & He & Hd).
  apply variant_of_some in Hvo as (_ & _ & Hcn & Htn).
  apply extractClassName_first in Hcn
    as (pre & u & post & _ & Hcn & Hu & Hw & _).
  apply extractTagName_first in Htn
    as (pre' & q1 & q2 & post' & _ & _ & _ & Ht & Htw & _).
  repeat split; auto.
  - exists file, content. auto.
  - exists u. auto.
Qed.

(** The second variant of the sample [button] directory. *)
Lemma variants_share_events_and_shape_witness :
  events (nth 1 (findAllComponentVariants sample_fs button_path (js "button"))
            (Variant [] [] [] [] [] [] [])) =
  extractEvents sample_fs button_path.
Proof.
  assert (Hin : In (nth 1 (findAllComponentVariants sample_fs button_path
                             (js "button")) (Variant [] [] [] [] [] [] []))
                  (findAllComponentVariants sample_fs button_path
                     (js "button")))
    by (apply nth_In; vm_compute; lia).
  pose proof (variants_share_events_and_shape sample_fs button_path
                (js "button") _ Hin) as H.
  destruct H as [H _]. exact H.
Defined.

(** The events of a variant are rendered in the order their keys were first
    assigned, one line each ([Object.entries] reorders no key, none being an
    array index), and as [{}] exactly when there are none. *)
Theorem events_rendered_in_assignment_order :
  forall fs componentPath componentName v,
    In v (findAllComponentVariants fs componentPath componentName) ->
    entries (events v) = events v /\
    (eventsObj v = js "{}" <-> events v = []) /\
    (events v <> [] ->
     eventsObj v =
       js "{" ++ nl ++ js "        " ++
       join (js "," ++ nl ++ js "        ")
         (map (fun e => fst e ++ js ": '" ++ snd e ++ js "'") (events v)) ++
       js "," ++ nl ++ js "    }").
Proof.
  intros fs componentPath componentName v Hv.
  apply findAll_origin in Hv
    as (files & file & content & _ & _ & _ & _ & Hvo).
  apply variant_of_fields in Hvo as (_ & _ & He & _).
  assert (Hent : entries (events v) = events v)
    by (rewrite He; apply extractEvents_entries).
  split; [exact Hent|].
  unfold eventsObj, keys. rewrite Hent, length_map.
  destruct (events v) as [|e o]; simpl.
  - repeat split; auto. congruence.
  - split; [|reflexivity]. split; discriminate.
Qed.

(** The first variant of the sample [button] directory. *)
Lemma events_rendered_in_assignment_order_witness :
  entries (events (nth 0 (findAllComponentVariants sample_fs button_path
                            (js "button")) (Variant [] [] [] [] [] [] []))) =
  [(js "onChange", js "change"); (js "onInput", js "input")].
Proof.
  assert (Hin : In (nth 0 (findAllComponentVariants sample_fs button_path
                             (js "button")) (Variant [] [] [] [] [] [] []))
                  (findAllComponentVariants sample_fs button_path
                     (js "button")))
    by (apply nth_In; vm_compute; lia).
  pose proof (events_rendered_in_assignment_order sample_fs button_path
                (js "button") _ Hin) as H.
  destruct H as [H _]. rewrite H. vm_compute. reflexivity.
Defined.

(** When several annotations of a file give the same handler key, the
    mapping keeps the event name of the last of them; a key no annotation
    gives is absent. *)
Theorem events_last_annotation_wins :
  forall content k,
    get (fires_loop (matchAll fires_re content) []) k =
    match find (fun x => eqs (reactEventName (group 1 x)) k)
               (rev (matchAll fires_re content)) with
    | Some x => Some (group 1 x)
    | None => None
    end.
Proof. intros content k. now rewrite fires_loop_last. Qed.

(** The property documentation of a text: its keys are pairwise distinct
    non-empty runs of word characters other than [__proto__]; its values are
    non-empty, start with no white space and hold no line feed; and under a
    key that several documented properties share, the value is the
    documentation of the last of them whose cleaned documentation is not
    empty. *)
Theorem propertyDocs_entries_wellformed :
  forall content,
    NoDup (map fst (snd (extractDocumentation content))) /\
    (forall k d,
       In (k, d) (snd (extractDocumentation content)) ->
       k <> [] /\ forallb is_word k = true /\ k <> js "__proto__" /\
       d <> [] /\ stops is_space d /\ ~ In 10%N d) /\
    (forall k,
       k <> js "__proto__" ->
       get (snd (extractDocumentation content)) k =
       match find (fun x =>
                     truthy (join (js " ") (clean_lines (group 1 x))) &&
                     eqs (group 2 x) k)
                  (rev (matchAll propertyDoc_re content)) with
       | Some x => Some (join (js " ") (clean_lines (group 1 x)))
       | None => None
       end).
Proof.
  intros content. unfold extractDocumentation. cbn [snd].
  split; [apply propertyDocs_loop_NoDup; constructor|]. split.
  - intros k d H.
    apply propertyDocs_loop_In in H as [[]|(x & Hx & -> & Hp & -> & Ht)].
    destruct (propertyDoc_names _ _ Hx) as [Hne Hw].
    destruct (cleanDoc_spec _ Ht) as (Hd & Hs & Hnl).
    repeat split; auto.
  - intros k Hk. now rewrite propertyDocs_loop_last.
Qed.

(** The class documentation of a text is the join, by line feeds, of lines
    that are each non-empty, free of white space at both ends, free of line
    feeds and not started by [@]; when it is not empty, splitting it at the
    line feeds gives these lines back. *)
Theorem documentation_lines_clean :
  forall content,
    exists ls,
      fst (extractDocumentation content) = join nl ls /\
      (forall line, In line ls ->
         line <> [] /\ startsWith line (js "@") = false /\ trimmed line /\
         ~ In 10%N line) /\
      (ls <> [] -> split 10 (fst (extractDocumentation content)) = ls).
Proof.
  intros content. unfold extractDocumentation. cbn [fst].
  destruct (exec classDoc_re content) as [x|].
  - exists (clean_lines (group 1 x)). split; [reflexivity|]. split.
    + intros line. apply clean_lines_spec.
    + intros Hne. apply split_join; auto.
      apply Forall_forall. intros l Hl. now apply clean_lines_spec in Hl.
  - exists []. repeat split; try contradiction; congruence.
Qed.

(** A text in which [/**] never occurs has the empty class documentation and
    no property documentation. *)
Theorem no_comment_no_documentation :
  forall content,
    includes content (js "/**") = false ->
    extractDocumentation content = ([], []).
Proof.
  intros content H. unfold extractDocumentation.
  destruct (no_comment_no_match _ H) as [-> ->]. reflexivity.
Qed.

(** The sample file [harness.ts] has no comment. *)
Lemma no_comment_no_documentation_witness :
  extractDocumentation (js "export class Harness {}") = ([], []).
Proof.
  apply no_comment_no_documentation. vm_compute. reflexivity.
Defined.

(** A variant without class documentation is documented by a title made
    from its class name: [Md] taken off, a space put before every upper-case
    letter, the result trimmed, followed by the sentence naming its tag and
    the parameter lines. *)
Theorem fallback_documentation_title :
  forall v u,
    className v = js "Md" ++ u ->
    documentation v = [] ->
    fullDocumentation v =
      js "Material Design " ++ trim (space_capitals u) ++
      js " component." ++ nl ++
      js " * This component is a React wrapper around the `" ++ tagName v ++
      js "` custom element." ++ nl ++ js " *" ++ nl ++ js " * @component" ++
      nl ++ paramDocs v.
Proof.
  intros v u Hc Hd. unfold fullDocumentation.
  rewrite Hd, Hc, replaceAll_upper. reflexivity.
Qed.

(** The first variant of the sample [button] directory, [MdFilledButton],
    has no class documentation. *)
Lemma fallback_documentation_title_witness :
  fullDocumentation
    (nth 0 (findAllComponentVariants sample_fs button_path (js "button"))
       (Variant [] [] [] [] [] [] [])) =
  lines [ "Material Design Filled Button component.";
          " * This component is a React wrapper around the `md-filled-button` custom element.";
          " *";
          " * @component";
          " * @param {any} disabled - Disables the button." ]%string.
Proof.
  assert (Hc : className
                 (nth 0 (findAllComponentVariants sample_fs button_path
                           (js "button")) (Variant [] [] [] [] [] [] [])) =
               js "Md" ++ js "FilledButton")
    by (vm_compute; reflexivity).
  assert (Hd : documentation
                 (nth 0 (findAllComponentVariants sample_fs button_path
                           (js "button")) (Variant [] [] [] [] [] [] [])) = [])
    by (vm_compute; reflexivity).
  pose proof (fallback_documentation_title _ Hc Hd) as H.
  rewrite H. vm_compute. reflexivity.
Defined.

(** [extractComponentInfo] agrees with the loop of
    [findAllComponentVariants]: for a file it cannot read it gives [null],
    and for a text it gives a record exactly when the loop gives a variant,
    with the class name, tag name, documentation and property documentation
    of that variant. *)
Theorem extractComponentInfo_agrees_with_variant :
  forall fs componentPath componentName file,
    extractComponentInfo fs (componentPath ++ [file]) componentName =
    match readFile fs (componentPath ++ [file]) with
    | Some content =>
        option_map
          (fun v => ComponentInfo (className v) (tagName v) (documentation v)
                      (propertyDocs v))
          (variant_of fs componentPath componentName file content)
    | None => None
    end.
Proof.
  intros fs componentPath componentName file.
  unfold extractComponentInfo, variant_of.
  destruct (readFile fs (componentPath ++ [file])) as [content|];
    [|reflexivity].
  simpl.
  destruct (includes content (js "@customElement") &&
            includes content (js "export class")); [|reflexivity].
  destruct (extractDocumentation content) as [d pd].
  destruct (extractClassName content) as [cn|]; [|reflexivity].
  destruct (extractTagName content) as [tn|]; [|reflexivity].
  destruct (truthy cn && truthy tn); reflexivity.
Qed.

(** A listing of [internal] without a candidate file gives the empty
    mapping, and no file is read for it. *)
Theorem extractEvents_without_candidate :
  forall fs componentPath files,
    readdir fs (componentPath ++ [js "internal"]) = Some files ->
    (forall f, In f files -> is_internal_candidate f = false) ->
    forall fs',
      readdirTypes fs' = readdirTypes fs ->
      extractEvents fs' componentPath = [].
Proof.
  intros fs componentPath files Hdir Hnone fs' Hsame.
  unfold extractEvents, readdir in *. rewrite Hsame.
  destruct (readdirTypes fs (componentPath ++ [js "internal"]));
    [|discriminate].
  injection Hdir as Hdir. simpl. rewrite Hdir.
  rewrite <- (app_nil_r files), extractEvents_loop_skip by assumption.
  reflexivity.
Qed.

(** A directory [chip] whose [internal] lists a style sheet and a test. *)
Lemma extractEvents_without_candidate_witness :
  extractEvents
    (fs_of (Dir [ (js "chip",
                   Dir [ (js "internal",
                          Dir [ (js "chip-styles.ts",
                                 File internal_button_ts);
                                (js "chip_test.ts",
                                 File internal_button_ts) ]) ]) ]))
    [js "chip"] = [].
Proof.
  apply (extractEvents_without_candidate
           (fs_of (Dir [ (js "chip",
                          Dir [ (js "internal",
                                 Dir [ (js "chip-styles.ts",
                                        File internal_button_ts);
                                       (js "chip_test.ts",
                                        File internal_button_ts) ]) ]) ]))
           [js "chip"] (files := [js "chip-styles.ts"; js "chip_test.ts"])).
  - vm_compute. reflexivity.
  - intros f Hin. simpl in Hin.
    repeat destruct Hin as [<-|Hin]; try contradiction;
      vm_compute; reflexivity.
  - reflexivity.
Defined.

Lemma includes_trans (a b c : jsstring) :
  includes a b = true -> includes b c = true -> includes a c = true.
Proof.
  intros Hab Hbc. apply includes_inv in Hab as (pre & post & ->).
  now apply includes_mid.
Qed.

Lemma join_app (sep : jsstring) (l1 l2 : list jsstring) :
  l1 <> [] -> l2 <> [] ->
  join sep (l1 ++ l2) = join sep l1 ++ sep ++ join sep l2.
Proof.
  induction l1 as [|x l1 IH]; intros H1 H2; [congruence|].
  destruct l1 as [|y l1].
  - destruct l2; [congruence|reflexivity].
  - change (join sep ((x :: y :: l1) ++ l2))
      with (x ++ sep ++ join sep ((y :: l1) ++ l2)).
    rewrite IH by (auto; discriminate).
    change (join sep (x :: y :: l1)) with (x ++ sep ++ join sep (y :: l1)).
    now rewrite <- !app_assoc.
Qed.

(** Consecutive lines of a joined text are a piece of it. *)
Lemma includes_join_sub (sep : jsstring) (l1 l2 l3 : list jsstring) :
  l2 <> [] -> includes (join sep (l1 ++ l2 ++ l3)) (join sep l2) = true.
Proof.
  intros H2.
  assert (H23 : includes (join sep (l2 ++ l3)) (join sep l2) = true).
  { destruct l3 as [|z l3].
    - rewrite app_nil_r. apply includes_refl.
    - rewrite join_app by (auto; discriminate).
      apply (includes_intro [] (join sep l2)). }
  destruct l1 as [|x l1]; [exact H23|].
  rewrite join_app
    by first [discriminate | destruct l2; [congruence|discriminate]].
  pose proof (includes_mid (join sep (x :: l1) ++ sep) _ [] _ H23) as H.
  now rewrite app_nil_r, <- app_assoc in H.
Qed.

(** The wrapper of a component holds, for each of its variants, the import
    of the class under its underscored alias, the props type, the element
    interface and the head of the component definition, with the tag name
    and the class of the variant. *)
Theorem wrapper_has_every_variant :
  forall c timestamp v,
    In v (variants c) ->
    includes (generateReactWrapper c timestamp)
      (js "import { " ++ className v ++ js " as _" ++ className v ++
       js " } from '" ++ importPath v ++ js "'") = true /\
    includes (generateReactWrapper c timestamp)
      (js "export type " ++ className v ++
       js "Props = ComponentProps<typeof " ++ className v ++ js ">") = true /\
    includes (generateReactWrapper c timestamp)
      (js "export interface " ++ className v ++ js "Element extends _" ++
       className v ++ js " {}") = true /\
    includes (generateReactWrapper c timestamp)
      (join nl
         [ js "export const " ++ className v ++ js " = createComponent({";
           js "    react: React,";
           js "    tagName: '" ++ tagName v ++ js "',";
           js "    elementClass: _" ++ className v ++ js "," ]) = true.
Proof.
  intros c timestamp v Hv.
  assert (Hne : variants c <> []) by (intros E; rewrite E in Hv; destruct Hv).
  assert (Hsec : forall f piece,
            In (join nl (map f (variants c)))
               [ join nl (map wrapper_import (variants c));
                 join nl (map wrapper_type (variants c));
                 join nl (map wrapper_interface (variants c));
                 join nl (map wrapper_definition (variants c)) ] ->
            includes (f v) piece = true ->
            includes (generateReactWrapper c timestamp) piece = true).
  { intros f piece Hin Hp.
    eapply wrapper_includes; eauto.
    apply includes_trans with (b := f v); auto.
    now apply includes_join_map. }
  repeat split.
  - apply (Hsec wrapper_import); [simpl; auto|]. apply includes_refl.
  - apply (Hsec wrapper_type); [simpl; auto|].
    unfold wrapper_type. apply includes_join_In with
      (x := js "export type " ++ className v ++
            js "Props = ComponentProps<typeof " ++ className v ++ js ">").
    + simpl. auto 10.
    + apply includes_refl.
  - apply (Hsec wrapper_interface); [simpl; auto|].
    unfold wrapper_interface.
    pose proof (includes_intro nl
                  (js "export interface " ++ className v ++
                   js "Element extends _" ++ className v ++ js " {}") []) as H.
    now rewrite app_nil_r in H.
  - apply (Hsec wrapper_definition); [simpl; auto 10|].
    unfold wrapper_definition.
    apply (@includes_join_sub nl
             [ []; js "/**"; js " * " ++ fullDocumentation v; js " */" ]
             [ js "export const " ++ className v ++ js " = createComponent({";
               js "    react: React,";
               js "    tagName: '" ++ tagName v ++ js "',";
               js "    elementClass: _" ++ className v ++ js "," ]
             [ js "    events: " ++ eventsObj v ++ js ","; js "})" ]).
    discriminate.
Qed.

(** The wrapper of the sample [button] component imports its second
    variant. *)
Lemma wrapper_has_every_variant_witness :
  includes
    (generateReactWrapper
       (Component (js "button")
          (findAllComponentVariants sample_fs button_path (js "button")))
       (js "2024-01-01T00:00:00.000Z"))
    (js "import { MdTextButton as _MdTextButton } from '@material/web/button/text-button.js'")
  = true.
Proof.
  assert (Hin : In (nth 1 (findAllComponentVariants sample_fs button_path
                             (js "button")) (Variant [] [] [] [] [] [] []))
                  (variants
                     (Component (js "button")
                        (findAllComponentVariants sample_fs button_path
                           (js "button")))))
    by (apply nth_In; vm_compute; lia).
  pose proof (wrapper_has_every_variant _ (js "2024-01-01T00:00:00.000Z") _ Hin)
    as H.
  destruct H as [H _].
  assert (E : js "import { MdTextButton as _MdTextButton } from '@material/web/button/text-button.js'" =
              js "import { " ++
              className (nth 1 (findAllComponentVariants sample_fs button_path
                                  (js "button")) (Variant [] [] [] [] [] [] []))
              ++ js " as _" ++
              className (nth 1 (findAllComponentVariants sample_fs button_path
                                  (js "button")) (Variant [] [] [] [] [] [] []))
              ++ js " } from '" ++
              importPath (nth 1 (findAllComponentVariants sample_fs button_path
                                   (js "button")) (Variant [] [] [] [] [] [] []))
              ++ js "'")
    by (vm_compute; reflexivity).
  rewrite E. exact H.
Defined.

(** The manifest a run of [createOutputStructure] writes last holds one
    export line for every variant of every component, naming the class, its
    props type and its element type, from the folder of the component. *)
Theorem manifest_exports_every_variant :
  forall clock components c v,
    In c components -> In v (variants c) ->
    includes
      (snd (last (createOutputStructure clock components) ([], [])))
      (js "export { " ++ className v ++ js ", type " ++
       (className v ++ js "Props") ++ js ", type " ++
       (className v ++ js "Element") ++ js " } from './" ++ name c ++ js "'")
    = true.
Proof.
  intros clock components c v Hc Hv.
  rewrite createOutputStructure_spec, last_last. cbn [snd].
  unfold mainIndexContent. cbv zeta.
  apply includes_join_In with
    (x := join nl (map export_line (flat_map exports_of components))).
  - simpl. auto 20.
  - apply (includes_join_map export_line _
             (ExportRecord (className v) (className v ++ js "Props")
                (className v ++ js "Element") (name c))).
    apply in_flat_map. exists c. split; auto.
    unfold exports_of.
    apply (in_map (fun v => ExportRecord (className v)
                              (className v ++ js "Props")
                              (className v ++ js "Element") (name c))) in Hv.
    exact Hv.
Qed.

(** The manifest written for the sample [button] component. *)
Lemma manifest_exports_every_variant_witness :
  includes
    (snd (last (createOutputStructure (fun _ => js "2024-01-01T00:00:00.000Z")
                  [ Component (js "button")
                      (findAllComponentVariants sample_fs button_path
                         (js "button")) ])
            ([], [])))
    (js "export { MdTextButton, type MdTextButtonProps, type MdTextButtonElement } from './button'")
  = true.
Proof.
  assert (Hc : In (Component (js "button")
                     (findAllComponentVariants sample_fs button_path
                        (js "button")))
                 [ Component (js "button")
                     (findAllComponentVariants sample_fs button_path
                        (js "button")) ]) by (left; reflexivity).
  assert (Hv : In (nth 1 (findAllComponentVariants sample_fs button_path
                            (js "button")) (Variant [] [] [] [] [] [] []))
                 (variants
                    (Component (js "button")
                       (findAllComponentVariants sample_fs button_path
                          (js "button")))))
    by (apply nth_In; vm_compute; lia).
  pose proof (manifest_exports_every_variant
                (fun _ => js "2024-01-01T00:00:00.000Z") _ _ _ Hc Hv) as H.
  assert (E : js "export { MdTextButton, type MdTextButtonProps, type MdTextButtonElement } from './button'" =
              js "export { " ++
              className (nth 1 (findAllComponentVariants sample_fs button_path
                                  (js "button")) (Variant [] [] [] [] [] [] []))
              ++ js ", type " ++
              (className (nth 1 (findAllComponentVariants sample_fs button_path
                                   (js "button")) (Variant [] [] [] [] [] [] []))
               ++ js "Props") ++ js ", type " ++
              (className (nth 1 (findAllComponentVariants sample_fs button_path
                                   (js "button")) (Variant [] [] [] [] [] [] []))
               ++ js "Element") ++ js " } from './" ++
              name (Component (js "button")
                      (findAllComponentVariants sample_fs button_path
                         (js "button"))) ++ js "'")
    by (vm_compute; reflexivity).
  rewrite E. exact H.
Defined.

End FurtherProperties.
